(** * db_corsework: the hh.ru loader and the PostgreSQL query layer

    A shallow embedding of [src/db_setup.py] (schema), [src/db_manager.py]
    (the five queries of [DBManager]), [src/loader.py] (normalisation and
    the two upserts) and [src/hh_api.py] (the HTTP client).

    Conventions of the embedding.
    - A PostgreSQL [INTEGER] is a [Z] kept inside the 32-bit signed range;
      [int4pl] raises "integer out of range" outside of it, as the server
      does.
    - A PostgreSQL [numeric] is a rational [Q]: sums and the division by
      [2.0] are exact. The last rounding of [AVG] to its display scale and
      the conversion [float(avg_salary)] are not represented.
    - [TEXT] is [string], the UTF-8 bytes of the text. Comparison is
      byte-wise; [ILIKE] folds the letters [A] to [Z] and [_] stands for
      one byte, which is what the server does on ASCII text. On other text
      the server folds and counts characters; the properties that depend
      on it are stated for ASCII text. A string with a NUL character is
      refused by psycopg2 before it reaches the server.
    - [TIMESTAMPTZ]: a row holds the [datetime] that the driver was
      handed. The server keeps the instant that it denotes (a value without
      offset is read in the time zone of the session). No query of
      [DBManager] reads the column; the properties below rely only on
      equal values being stored as equal instants, and on whether the
      column is [NULL].
    - A Python exception is a value [Raise e] of [result]; a transaction
      ([with conn:]) that raises leaves the tables as they were. The
      values that a rolled-back statement took from a sequence are not
      tracked. A batch that is refused for several reasons raises one of
      the errors, not always the one that the server reports first.
    - The JSON objects of the upstream service are records with the fields
      that the loader reads; [id] fields hold the integer that [int(...)]
      gives. The service itself, and [datetime.fromisoformat], are
      parameters of the functions that call them.
    - A run acts on a [world]: the database and the log of the HTTP
      requests sent so far. *)

From Stdlib Require Import ZArith QArith Lqa List String Ascii Bool Sorted Lia.
From stdpp Require Import base option list gmap strings.
Import ListNotations.

Open Scope Z_scope.

(** ** Exceptions and results *)

Inductive exn : Type :=
| HTTPError                 (* requests: raise_for_status, transport, bad JSON *)
| ValueError                (* datetime.fromisoformat on a string it rejects; psycopg2 on NUL *)
| NumericValueOutOfRange    (* SQLSTATE 22003 *)
| NotNullViolation          (* SQLSTATE 23502 *)
| CardinalityViolation      (* SQLSTATE 21000 *)
| SequenceLimitExceeded     (* SQLSTATE 2200H *)
| InvalidEscapeSequence.    (* SQLSTATE 22025 *)

Inductive result (A : Type) : Type :=
| Ok (a : A)
| Raise (e : exn).
Arguments Ok {A} a.
Arguments Raise {A} e.

#[global] Instance result_ret : MRet result := fun _ a => Ok a.
#[global] Instance result_bind : MBind result := fun _ _ f m =>
  match m with
  | Ok a => f a
  | Raise e => Raise e
  end.
#[global] Instance result_fmap : FMap result := fun _ _ f m =>
  match m with
  | Ok a => Ok (f a)
  | Raise e => Raise e
  end.

#[global] Instance exn_eq_dec : EqDecision exn.
Proof. solve_decision. Defined.

(** ** Schema ([create_tables]) *)

Definition int4_min : Z := -2147483648.
Definition int4_max : Z := 2147483647.

Definition in_int4 (z : Z) : bool := (int4_min <=? z) && (z <=? int4_max).

(** [published_at TIMESTAMPTZ]: the fields of a Python [datetime]. *)
Record datetime : Type := {
  dt_year : Z; dt_month : Z; dt_day : Z;
  dt_hour : Z; dt_minute : Z; dt_second : Z;
  dt_utcoffset : option Z   (* minutes east of UTC *)
}.

Record company : Type := {
  c_id : Z;                 (* id SERIAL PRIMARY KEY *)
  c_hh_id : Z;              (* hh_id INTEGER UNIQUE NOT NULL *)
  c_name : string;          (* name TEXT NOT NULL *)
  c_url : option string     (* url TEXT *)
}.

Record vacancy : Type := {
  v_id : Z;                          (* id SERIAL PRIMARY KEY *)
  v_hh_id : Z;                       (* hh_id INTEGER UNIQUE NOT NULL *)
  v_company_id : Z;                  (* company_id INTEGER NOT NULL REFERENCES companies(id) *)
  v_title : string;                  (* title TEXT NOT NULL *)
  v_salary_from : option Z;          (* salary_from INTEGER *)
  v_salary_to : option Z;            (* salary_to INTEGER *)
  v_salary_currency : option string; (* salary_currency TEXT *)
  v_alternate_url : option string;   (* alternate_url TEXT *)
  v_published_at : option datetime   (* published_at TIMESTAMPTZ *)
}.

(** The database: the two tables and the two [SERIAL] sequences. *)
Record db : Type := {
  companies : list company;
  vacancies : list vacancy;
  companies_id_seq : Z;
  vacancies_id_seq : Z
}.

(** ** SQL expressions used by [DBManager] *)

(** [integer + integer]: raises outside of the 32-bit range. *)
Definition int4pl (a b : Z) : result Z :=
  if in_int4 (a + b) then Ok (a + b) else Raise NumericValueOutOfRange.

(** The [CASE] expression of [get_avg_salary] and of
    [get_vacancies_with_higher_salary]; [None] is SQL [NULL]. *)
Definition salary_case (salary_from salary_to : option Z) : result (option Q) :=
  match salary_from, salary_to with
  | Some f, Some t => s ← int4pl f t; Ok (Some (inject_Z s / 2)%Q)
  | Some f, None => Ok (Some (inject_Z f * 1)%Q)
  | None, Some t => Ok (Some (inject_Z t * 1)%Q)
  | None, None => Ok None
  end.

Definition Qsum (l : list Q) : Q := fold_right Qplus 0%Q l.

(** [AVG]: [NULL] inputs are ignored; no non-[NULL] input gives [NULL]. *)
Definition sql_avg (l : list (option Q)) : option Q :=
  match omap id l with
  | [] => None
  | x :: xs => Some (Qsum (x :: xs) / inject_Z (Z.of_nat (length (x :: xs))))%Q
  end.

(** [SELECT AVG(CASE ... END) AS avg_salary FROM vacancies] *)
Definition select_avg_salary (vs : list vacancy) : result (option Q) :=
  xs ← mapM (fun v => salary_case (v_salary_from v) (v_salary_to v)) vs;
  Ok (sql_avg xs).

(** [DBManager.get_avg_salary] *)
Definition get_avg_salary (s : db) : result (option Q) :=
  select_avg_salary (vacancies s).

(** ** Joins, [ORDER BY] and the row type returned to the caller *)

Record VacancyView : Type := {
  company_name : string;
  vacancy_title : string;
  salary_from : option Z;
  salary_to : option Z;
  currency : option string;
  url : option string
}.

(** [SELECT c.name, v.title, v.salary_from, v.salary_to, v.salary_currency,
    v.alternate_url] *)
Definition select_view (r : company * vacancy) : VacancyView :=
  {| company_name := c_name r.1;
     vacancy_title := v_title r.2;
     salary_from := v_salary_from r.2;
     salary_to := v_salary_to r.2;
     currency := v_salary_currency r.2;
     url := v_alternate_url r.2 |}.

(** [FROM vacancies v JOIN companies c ON c.id = v.company_id] *)
Definition vacancies_join_companies (s : db) : list (company * vacancy) :=
  v ← vacancies s;
  c ← filter (fun c => c_id c = v_company_id v) (companies s);
  [(c, v)].

(** [FROM companies c LEFT JOIN vacancies v ON v.company_id = c.id]:
    a company without vacancies keeps one row, with [NULL]s for [v]. *)
Definition left_join_rows (s : db) (c : company) : list (company * option vacancy) :=
  match filter (fun v => v_company_id v = c_id c) (vacancies s) with
  | [] => [(c, None)]
  | vs => (fun v => (c, Some v)) <$> vs
  end.

Definition companies_left_join_vacancies (s : db) : list (company * option vacancy) :=
  c ← companies s; left_join_rows s c.

(** [ORDER BY] is a stable sort: rows that compare equal keep the order in
    which the join produced them. *)
Fixpoint insert_by {A : Type} (le : A -> A -> bool) (x : A) (l : list A) : list A :=
  match l with
  | [] => [x]
  | y :: l' => if le x y then x :: y :: l' else y :: insert_by le x l'
  end.

Definition order_by {A : Type} (le : A -> A -> bool) (l : list A) : list A :=
  fold_right (insert_by le) [] l.

(** A list in the order of [le]: every row is below all the later ones. *)
Definition sorted_by {A : Type} (le : A -> A -> bool) (l : list A) : Prop :=
  StronglySorted (fun x y => le x y = true) l.

(** Two sort keys, both ascending: [ORDER BY k1, k2]. *)
Definition text_pair_leb (a b : string * string) : bool :=
  match String.compare a.1 b.1 with
  | Lt => true
  | Eq => String.leb a.2 b.2
  | Gt => false
  end.

(** [ORDER BY c.name, v.title] *)
Definition name_title_leb (a b : company * vacancy) : bool :=
  text_pair_leb (c_name a.1, v_title a.2) (c_name b.1, v_title b.2).

(** The same order read off the returned rows. *)
Definition view_leb (a b : VacancyView) : bool :=
  text_pair_leb (company_name a, vacancy_title a) (company_name b, vacancy_title b).

(** [DBManager.get_all_vacancies] *)
Definition get_all_vacancies (s : db) : list VacancyView :=
  select_view <$> order_by name_title_leb (vacancies_join_companies s).

(** ** [DBManager.get_vacancies_with_higher_salary] *)

Definition Qlt_bool (x y : Q) : bool := negb (Qle_bool y x).

(** [a > b] in SQL's three-valued logic. *)
Definition sql_gt (a b : option Q) : option bool :=
  match a, b with
  | Some x, Some y => Some (Qlt_bool y x)
  | _, _ => None
  end.

(** [WHERE] keeps a row only when its condition is true (not [NULL]). *)
Definition where_holds (c : option bool) : bool :=
  match c with
  | Some true => true
  | _ => false
  end.

Fixpoint filter_rows {A : Type} (cond : A -> result bool) (l : list A) : result (list A) :=
  match l with
  | [] => Ok []
  | x :: l' =>
      b ← cond x;
      rest ← filter_rows cond l';
      Ok (if b : bool then x :: rest else rest)
  end.

(** [WHERE CASE ... END > s.avg_salary], for one joined row. *)
Definition higher_than (avg_salary : option Q) (r : company * vacancy) : result bool :=
  x ← salary_case (v_salary_from r.2) (v_salary_to r.2);
  Ok (where_holds (sql_gt x avg_salary)).

Definition get_vacancies_with_higher_salary (s : db) : result (list VacancyView) :=
  avg_salary ← select_avg_salary (vacancies s);      (* WITH s AS (...) *)
  rows ← filter_rows (higher_than avg_salary) (vacancies_join_companies s);
  Ok (select_view <$> order_by name_title_leb rows).

(** ** [DBManager.get_companies_and_vacancies_count] *)

(** [GROUP BY c.name]: one group per distinct name. *)
Definition group_by_name (rows : list (company * option vacancy)) : list string :=
  remove_dups ((fun r => c_name r.1) <$> rows).

(** [COUNT(v.id)]: the rows of the group whose [v.id] is not [NULL]. *)
Definition count_v_id (rows : list (company * option vacancy)) : Z :=
  Z.of_nat (length (filter (fun r => is_Some r.2) rows)).

(** [ORDER BY count DESC, c.name] *)
Definition count_desc_name_leb (a b : string * Z) : bool :=
  if b.2 <? a.2 then true
  else if a.2 =? b.2 then String.leb a.1 b.1
  else false.

Definition get_companies_and_vacancies_count (s : db) : list (string * Z) :=
  let rows := companies_left_join_vacancies s in
  order_by count_desc_name_leb
    ((fun n => (n, count_v_id (filter (fun r => c_name r.1 = n) rows))) <$> group_by_name rows).

(** ** [DBManager.get_vacancies_with_keyword]: [ILIKE] *)

Definition lower_char (c : ascii) : ascii :=
  let n := nat_of_ascii c in
  if ((65 <=? n) && (n <=? 90))%nat then ascii_of_nat (n + 32) else c.

Definition lower (s : list ascii) : list ascii := map lower_char s.

(** [text LIKE pattern]: [%] is any run of characters, [_] is any one
    character, a backslash makes the next pattern character literal, and a
    pattern that ends inside an escape is an error once text is left to
    match against it. *)
Fixpoint like (p : list ascii) (t : list ascii) {struct p} : result bool :=
  match p with
  | [] => Ok (bool_decide (t = []))
  | c :: p' =>
      if Ascii.eqb c "%" then
        (fix any (t : list ascii) : result bool :=
           b ← like p' t;
           if b : bool then Ok true
           else match t with
                | [] => Ok false
                | _ :: t' => any t'
                end) t
      else if Ascii.eqb c "_" then
        match t with
        | [] => Ok false
        | _ :: t' => like p' t'
        end
      else if Ascii.eqb c "\" then
        match p', t with
        | _, [] => Ok false
        | [], _ :: _ => Raise InvalidEscapeSequence
        | e :: p'', d :: t' => if Ascii.eqb e d then like p'' t' else Ok false
        end
      else
        match t with
        | [] => Ok false
        | d :: t' => if Ascii.eqb c d then like p' t' else Ok false
        end
  end.

(** [text ILIKE pattern]: both sides are folded to lower case first. *)
Definition ilike (text pattern : string) : result bool :=
  like (lower (list_ascii_of_string pattern)) (lower (list_ascii_of_string text)).

(** What psycopg2 makes of a [str] parameter of [cur.execute]: a string
    that holds a NUL character is refused with [ValueError] ("A string
    literal cannot contain NUL (0x00) characters") before the query is
    sent. *)
Definition adapt_text (s : string) : result string :=
  if existsb (Ascii.eqb zero) (list_ascii_of_string s) then Raise ValueError else Ok s.

Definition get_vacancies_with_keyword (s : db) (keyword : string) : result (list VacancyView) :=
  pattern ← adapt_text ("%" ++ keyword ++ "%")%string;
  rows ← filter_rows (fun r => ilike (v_title r.2) pattern) (vacancies_join_companies s);
  Ok (select_view <$> order_by name_title_leb rows).

(** What the docstring promises: the keyword occurs in the title, without
    regard to case. *)
Fixpoint is_prefix (k t : list ascii) : bool :=
  match k, t with
  | [], _ => true
  | _ :: _, [] => false
  | a :: k', b :: t' => Ascii.eqb a b && is_prefix k' t'
  end.

Fixpoint is_substring (k t : list ascii) : bool :=
  is_prefix k t ||
  match t with
  | [] => false
  | _ :: t' => is_substring k t'
  end.

Definition contains_keyword (title keyword : string) : bool :=
  is_substring (lower (list_ascii_of_string keyword)) (lower (list_ascii_of_string title)).

(** ** [INSERT ... VALUES %s ON CONFLICT (hh_id) DO UPDATE], through
    [psycopg2.extras.execute_values] *)

Module Upsert.
Section Table.
(** [Row] is a tuple of the [VALUES] list, [Rec] a stored row. *)
Context {Row Rec : Type}.
Variable row_key : Row -> Z.            (* the proposed hh_id *)
Variable key : Rec -> Z.                (* the stored hh_id *)
Variable constraints : Row -> result unit.   (* column types and NOT NULL *)
Variable inserted : Z -> Row -> Rec.    (* the new row, with its serial id *)
Variable updated : Row -> Rec -> Rec.   (* DO UPDATE SET ... = EXCLUDED.... *)

(** [nextval] of a [SERIAL] sequence. *)
Definition nextval (seq : Z) : result (Z * Z) :=
  if seq <=? int4_max then Ok (seq, seq + 1) else Raise SequenceLimitExceeded.

(** One proposed row. The serial default is evaluated and the
    constraints are checked before the conflict is looked for, so an
    update too uses up a sequence value. *)
Definition upsert_row (st : list Rec * Z) (r : Row) : result (list Rec * Z) :=
  '(id, seq) ← nextval st.2;
  constraints r;;
  if existsb (fun c => key c =? row_key r) st.1
  then Ok ((fun c => if key c =? row_key r then updated r c else c) <$> st.1, seq)
  else Ok (st.1 ++ [inserted id r], seq).

(** One statement. A second proposed row with the key of a row that the
    statement has already inserted or updated is refused ("ON CONFLICT DO
    UPDATE command cannot affect row a second time"). *)
Fixpoint statement (touched : gset Z) (st : list Rec * Z) (page : list Row)
  : result (list Rec * Z) :=
  match page with
  | [] => Ok st
  | r :: page' =>
      if bool_decide (row_key r ∈ touched) then Raise CardinalityViolation
      else st' ← upsert_row st r; statement ({[row_key r]} ∪ touched) st' page'
  end.

(** [execute_values] sends [argslist] in pages of [page_size] rows, one
    statement per page. *)
Fixpoint paginate_fuel (fuel page_size : nat) (argslist : list Row) : list (list Row) :=
  match fuel, argslist with
  | O, _ | _, [] => []
  | S fuel', _ => take page_size argslist :: paginate_fuel fuel' page_size (drop page_size argslist)
  end.

Definition paginate (page_size : nat) (argslist : list Row) : list (list Row) :=
  paginate_fuel (length argslist) page_size argslist.

Fixpoint statements (st : list Rec * Z) (pages : list (list Row)) : result (list Rec * Z) :=
  match pages with
  | [] => Ok st
  | page :: pages' => st' ← statement ∅ st page; statements st' pages'
  end.

Definition execute_values (st : list Rec * Z) (argslist : list Row) : result (list Rec * Z) :=
  statements st (paginate 100 argslist).

(** The same rows proposed one by one, without the page structure. *)
Fixpoint upsert_rows (st : list Rec * Z) (rows : list Row) : result (list Rec * Z) :=
  match rows with
  | [] => Ok st
  | r :: rows' => st' ← upsert_row st r; upsert_rows st' rows'
  end.

(** The last row of [rows] that proposes the key [k], and a stored row
    overwritten by the last proposal for its key. *)
Fixpoint last_row (k : Z) (rows : list Row) : option Row :=
  match rows with
  | [] => None
  | r :: rows' =>
      match last_row k rows' with
      | Some r' => Some r'
      | None => if row_key r =? k then Some r else None
      end
  end.

Definition overwrite_last (rows : list Row) (c : Rec) : Rec :=
  match last_row (key c) rows with
  | Some r => updated r c
  | None => c
  end.
End Table.
End Upsert.

(** ** [src/loader.py] *)

(** A field read with [dict.get(key, default)]: the key may be missing, or
    bound to JSON [null], or bound to a value. *)
Inductive field (A : Type) : Type :=
| Missing
| Null
| Value (a : A).
Arguments Missing {A}.
Arguments Null {A}.
Arguments Value {A} a.

(** [d.get(key, default)] *)
Definition get_default {A : Type} (f : field A) (default : A) : option A :=
  match f with
  | Missing => Some default
  | Null => None
  | Value a => Some a
  end.

(** An employer object of [GET /employers/{id}]; [emp_id] is the integer
    [int(emp["id"])]. The fields read with [.get(key)] are [None] when the
    key is missing or [null]. *)
Record employer_payload : Type := {
  emp_id : Z;
  emp_name : field string;
  emp_alternate_url : option string;
  emp_url : option string
}.

Record salary_payload : Type := {
  sal_from : option Z;
  sal_to : option Z;
  sal_currency : option string
}.

Record employer_ref : Type := { ref_id : option Z }.

(** An element of [items] of [GET /vacancies]. *)
Record vacancy_payload : Type := {
  vac_id : Z;
  vac_employer : option employer_ref;
  vac_name : field string;
  vac_salary : option salary_payload;
  vac_alternate_url : option string;
  vac_published_at : option string
}.

(** [a or b] on optional strings: [None] and the empty string are falsy. *)
Definition py_or (a b : option string) : option string :=
  match a with
  | Some s => if bool_decide (s = EmptyString) then b else Some s
  | None => b
  end.

Definition _parse_salary (salary : option salary_payload)
  : option Z * option Z * option string :=
  match salary with
  | None => (None, None, None)
  | Some sal => (sal_from sal, sal_to sal, sal_currency sal)
  end.

(** [str.replace(old, new)] for a one-character [old]. *)
Fixpoint replace (old : ascii) (new : string) (s : string) : string :=
  match s with
  | EmptyString => EmptyString
  | String c s' =>
      if Ascii.eqb c old then (new ++ replace old new s')%string
      else String c (replace old new s')
  end.

(** A tuple of [rows] in [upsert_companies]: [(hh_id, name, url)]. *)
Record company_row : Type := {
  cr_hh_id : Z;
  cr_name : option string;
  cr_url : option string
}.

(** A tuple of [rows] in [insert_vacancies]. *)
Record vacancy_row : Type := {
  vr_hh_id : Z;
  vr_company_id : Z;
  vr_title : option string;
  vr_salary_from : option Z;
  vr_salary_to : option Z;
  vr_salary_currency : option string;
  vr_alternate_url : option string;
  vr_published_at : option datetime
}.

Definition check_int4 (z : Z) : result unit :=
  if in_int4 z then Ok () else Raise NumericValueOutOfRange.

Definition check_int4_null (z : option Z) : result unit :=
  match z with
  | None => Ok ()
  | Some z => check_int4 z
  end.

Definition check_not_null {A : Type} (x : option A) : result unit :=
  match x with
  | None => Raise NotNullViolation
  | Some _ => Ok ()
  end.

(** A string of a tuple goes through [adapt_text] when psycopg2 builds the
    statement; [None] is sent as [NULL]. *)
Definition check_text (x : option string) : result unit :=
  match x with
  | None => Ok ()
  | Some s => adapt_text s;; Ok ()
  end.

(** [companies (hh_id, name, url)] *)
Definition company_constraints (r : company_row) : result unit :=
  check_text (cr_name r);;
  check_text (cr_url r);;
  check_int4 (cr_hh_id r);;
  check_not_null (cr_name r).

Definition company_inserted (id : Z) (r : company_row) : company :=
  {| c_id := id; c_hh_id := cr_hh_id r;
     c_name := default EmptyString (cr_name r); c_url := cr_url r |}.

(** [SET name = EXCLUDED.name, url = EXCLUDED.url] *)
Definition company_updated (r : company_row) (c : company) : company :=
  {| c_id := c_id c; c_hh_id := c_hh_id c;
     c_name := default EmptyString (cr_name r); c_url := cr_url r |}.

(** [vacancies (hh_id, company_id, title, salary_from, salary_to,
    salary_currency, alternate_url, published_at)] *)
Definition vacancy_constraints (r : vacancy_row) : result unit :=
  check_text (vr_title r);;
  check_text (vr_salary_currency r);;
  check_text (vr_alternate_url r);;
  check_int4 (vr_hh_id r);;
  check_int4 (vr_company_id r);;
  check_int4_null (vr_salary_from r);;
  check_int4_null (vr_salary_to r);;
  check_not_null (vr_title r).

Definition vacancy_inserted (id : Z) (r : vacancy_row) : vacancy :=
  {| v_id := id; v_hh_id := vr_hh_id r; v_company_id := vr_company_id r;
     v_title := default EmptyString (vr_title r);
     v_salary_from := vr_salary_from r; v_salary_to := vr_salary_to r;
     v_salary_currency := vr_salary_currency r;
     v_alternate_url := vr_alternate_url r;
     v_published_at := vr_published_at r |}.

(** [SET company_id = EXCLUDED.company_id, title = EXCLUDED.title, ...]:
    every column but [id] and [hh_id]. *)
Definition vacancy_updated (r : vacancy_row) (v : vacancy) : vacancy :=
  {| v_id := v_id v; v_hh_id := v_hh_id v; v_company_id := vr_company_id r;
     v_title := default EmptyString (vr_title r);
     v_salary_from := vr_salary_from r; v_salary_to := vr_salary_to r;
     v_salary_currency := vr_salary_currency r;
     v_alternate_url := vr_alternate_url r;
     v_published_at := vr_published_at r |}.

(** The tables after a call: a call that raised has been rolled back. *)
Definition after (s : db) (r : result db) : db :=
  match r with
  | Ok s' => s'
  | Raise _ => s
  end.

(** [rows.append((int(emp["id"]), emp.get("name", ""),
    emp.get("alternate_url") or emp.get("url")))] *)
Definition company_row_of (emp : employer_payload) : company_row :=
  {| cr_hh_id := emp_id emp;
     cr_name := get_default (emp_name emp) EmptyString;
     cr_url := py_or (emp_alternate_url emp) (emp_url emp) |}.

Definition upsert_companies (employers : list employer_payload) (s : db) : result db :=
  let rows := company_row_of <$> employers in
  if bool_decide (rows = []) then Ok s
  else
    '(cs, seq) ← Upsert.execute_values cr_hh_id c_hh_id company_constraints
                   company_inserted company_updated
                   (companies s, companies_id_seq s) rows;
    Ok {| companies := cs; vacancies := vacancies s;
          companies_id_seq := seq; vacancies_id_seq := vacancies_id_seq s |}.

(** [mapping = {hh_id: cid for (cid, hh_id) in cur.fetchall()}] over
    [SELECT id, hh_id FROM companies]. *)
Definition company_mapping (s : db) : gmap Z Z :=
  foldl (fun m c => <[c_hh_id c := c_id c]> m) ∅ (companies s).

(** A posting whose employer is bound in [mapping]. *)
Definition resolves (s : db) (vac : vacancy_payload) : bool :=
  match vac_employer vac with
  | Some employer =>
      match ref_id employer with
      | Some emp_hh_id => bool_decide (is_Some (company_mapping s !! emp_hh_id))
      | None => false
      end
  | None => false
  end.

Section Loader.
(** [datetime.fromisoformat]; it raises [ValueError] on a string that it
    does not accept. *)
Variable fromisoformat : string -> result datetime.

Definition _parse_published_at (value : option string) : result (option datetime) :=
  match value with
  | None => Ok None
  | Some value =>
      if bool_decide (value = EmptyString) then Ok None
      else
        let v := replace "Z" "+00:00" value in
        match fromisoformat v with
        | Ok t => Ok (Some t)
        | Raise ValueError => Ok None
        | Raise e => Raise e
        end
  end.

(** The [for vac in vacancies] loop of [insert_vacancies]. *)
Fixpoint vacancy_rows (mapping : gmap Z Z) (vacancies : list vacancy_payload)
  : result (list vacancy_row) :=
  match vacancies with
  | [] => Ok []
  | vac :: vacancies' =>
      let hh_vac_id := vac_id vac in
      let employer := default {| ref_id := None |} (vac_employer vac) in
      match ref_id employer with
      | None => vacancy_rows mapping vacancies'
      | Some emp_hh_id =>
          match mapping !! emp_hh_id with
          | None => vacancy_rows mapping vacancies'
          | Some company_id =>
              let '(salary_from, salary_to, currency) := _parse_salary (vac_salary vac) in
              published_at ← _parse_published_at (vac_published_at vac);
              rows ← vacancy_rows mapping vacancies';
              Ok ({| vr_hh_id := hh_vac_id; vr_company_id := company_id;
                     vr_title := get_default (vac_name vac) EmptyString;
                     vr_salary_from := salary_from; vr_salary_to := salary_to;
                     vr_salary_currency := currency;
                     vr_alternate_url := vac_alternate_url vac;
                     vr_published_at := published_at |} :: rows)
          end
      end
  end.

Definition insert_vacancies (vacancies_in : list vacancy_payload) (s : db) : result db :=
  let mapping := company_mapping s in
  rows ← vacancy_rows mapping vacancies_in;
  if bool_decide (rows = []) then Ok s
  else
    '(vs, seq) ← Upsert.execute_values vr_hh_id v_hh_id vacancy_constraints
                   vacancy_inserted vacancy_updated
                   (vacancies s, vacancies_id_seq s) rows;
    Ok {| companies := companies s; vacancies := vs;
          companies_id_seq := companies_id_seq s; vacancies_id_seq := seq |}.
End Loader.

(** ** [src/hh_api.py] and [load_hh_data_to_db] *)

(** A decoded JSON value, for the body of [GET /employers]. *)
#[local] Unset Elimination Schemes.
Inductive json : Type :=
| JNull
| JBool (b : bool)
| JNum (n : Z)
| JStr (s : string)
| JArr (l : list json)
| JObj (o : list (string * json)).
#[local] Set Elimination Schemes.

(** [params] of [GET /vacancies]; an optional key is [None] when the client
    leaves it out of the dictionary. *)
Record vacancies_params : Type := {
  p_employer_id : Z;
  p_per_page : Z;
  p_page : Z;
  p_area : option Z;
  p_only_with_salary : option bool
}.

(** The decoded body of [GET /vacancies]; a key is [None] when the body
    does not have it. *)
Record vacancies_body : Type := {
  body_items : option (list vacancy_payload);
  body_pages : option Z
}.

Inductive request : Type :=
| GetEmployer (employer_id : Z)
| SearchEmployers (text : string) (per_page : Z)
| GetVacancies (params : vacancies_params).

(** What a run acts on: the database and the requests sent so far. *)
Record world : Type := {
  w_db : db;
  w_requests : list request
}.

Definition io (A : Type) : Type := world -> world * result A.

#[global] Instance io_ret : MRet io := fun _ a w => (w, Ok a).
#[global] Instance io_bind : MBind io := fun _ _ f m w =>
  match m w with
  | (w', Ok a) => f a w'
  | (w', Raise e) => (w', Raise e)
  end.

(** The world after the requests [rqs] have been sent. *)
Definition sent (w : world) (rqs : list request) : world :=
  {| w_db := w_db w; w_requests := w_requests w ++ rqs |}.

Definition send {A : Type} (rq : request) (response : result A) : io A :=
  fun w => (sent w [rq], response).

(** [with conn:] around a write: commit, or roll back and re-raise. *)
Definition transaction (f : db -> result db) : io unit :=
  fun w =>
    match f (w_db w) with
    | Ok s' => ({| w_db := s'; w_requests := w_requests w |}, Ok ())
    | Raise e => (w, Raise e)
    end.

(** [range(n)] *)
Definition range (n : Z) : list Z := Z.of_nat <$> seq 0 (Z.to_nat n).

Record EmployerSeed : Type := {
  hh_id : Z;
  note : string
}.

(** [params] of the request for one page: [area] and [only_with_salary]
    are put in only when they are set. *)
Definition page_params (employer_id per_page : Z) (area : option Z)
    (only_with_salary : bool) (page : Z) : vacancies_params :=
  {| p_employer_id := employer_id; p_per_page := per_page; p_page := page;
     p_area := area;
     p_only_with_salary := if only_with_salary then Some true else None |}.

(** [data.get("items", [])] and [int(data.get("pages", 0))] *)
Definition items_of (data : vacancies_body) : list vacancy_payload :=
  default [] (body_items data).

Definition pages_of (data : vacancies_body) : Z :=
  default 0 (body_pages data).

Section HeadHunterAPI.
(** The upstream service: what [resp.raise_for_status(); resp.json()]
    gives for each request. *)
Variable employers_endpoint : Z -> result employer_payload.
Variable employers_search_endpoint : string -> Z -> result (gmap string json).
Variable vacancies_endpoint : vacancies_params -> result vacancies_body.

Definition get_employer (employer_id : Z) : io employer_payload :=
  send (GetEmployer employer_id) (employers_endpoint employer_id).

Definition search_employers (text : string) (per_page : Z) : io json :=
  data ← send (SearchEmployers text per_page) (employers_search_endpoint text per_page);
  mret (default (JArr []) (data !! "itmems"%string)).

(** The body of [for page in range(max_pages)], over the pages that are
    left. *)
Fixpoint pages_loop (employer_id per_page : Z) (area : option Z)
    (only_with_salary : bool) (pages_left : list Z)
    (all_items : list vacancy_payload) : io (list vacancy_payload) :=
  match pages_left with
  | [] => mret all_items
  | page :: pages_left' =>
      let params := page_params employer_id per_page area only_with_salary page in
      data ← send (GetVacancies params) (vacancies_endpoint params);
      let items := items_of data in
      let all_items := all_items ++ items in
      let pages := pages_of data in
      if bool_decide (page + 1 >= pages) then mret all_items
      else pages_loop employer_id per_page area only_with_salary pages_left' all_items
  end.

Definition get_vacancies_by_employer (employer_id per_page max_pages : Z)
    (area : option Z) (only_with_salary : bool) : io (list vacancy_payload) :=
  pages_loop employer_id per_page area only_with_salary (range max_pages) [].

Variable fromisoformat : string -> result datetime.

(** [for seed in seeds: all_vacancies.extend(...)] *)
Fixpoint extend_all (only_with_salary : bool) (max_pages : Z)
    (seeds : list EmployerSeed) (all_vacancies : list vacancy_payload)
  : io (list vacancy_payload) :=
  match seeds with
  | [] => mret all_vacancies
  | seed :: seeds' =>
      items ← get_vacancies_by_employer (hh_id seed) 100 max_pages None only_with_salary;
      extend_all only_with_salary max_pages seeds' (all_vacancies ++ items)
  end.

Definition load_hh_data_to_db (seeds : list EmployerSeed) (only_with_salary : bool)
    (max_pages : Z) : io unit :=
  employers_payload ← mapM (fun seed => get_employer (hh_id seed)) seeds;
  transaction (upsert_companies employers_payload);;
  all_vacancies ← extend_all only_with_salary max_pages seeds [];
  transaction (insert_vacancies fromisoformat all_vacancies).
End HeadHunterAPI.

(** ** Notions used to state the properties *)

(** A returned row whose computed salary is defined and above the average. *)
Definition salary_above (avg_salary : option Q) (r : VacancyView) : bool :=
  match salary_case (salary_from r) (salary_to r) with
  | Ok x => where_holds (sql_gt x avg_salary)
  | Raise _ => false
  end.

(** The number of postings of a company. *)
Definition vacancies_of (s : db) (c : company) : Z :=
  Z.of_nat (length (filter (fun v => v_company_id v = c_id c) (vacancies s))).

(** The characters that [LIKE] does not read literally. *)
Definition like_special (c : ascii) : bool :=
  Ascii.eqb c "%" || Ascii.eqb c "_" || Ascii.eqb c "\".

(** A keyword that [LIKE] reads literally. *)
Definition plain_keyword (keyword : string) : bool :=
  forallb (fun c => negb (like_special c)) (list_ascii_of_string keyword).

(** Text of ASCII characters other than NUL. On such text a character is
    one byte, and the case folding of [ILIKE] is the one of the letters
    [A] to [Z]. *)
Definition ascii_text (s : string) : bool :=
  forallb (fun c => let n := nat_of_ascii c in (0 <? n)%nat && (n <? 128)%nat)
    (list_ascii_of_string s).

(** Some suffix of [t] satisfies [f]. *)
Fixpoint some_suffix (f : list ascii -> bool) (t : list ascii) : bool :=
  f t ||
  match t with
  | [] => false
  | _ :: t' => some_suffix f t'
  end.

(** [c in s] for a character. *)
Fixpoint occurs (c : ascii) (s : string) : bool :=
  match s with
  | EmptyString => false
  | String d s' => Ascii.eqb d c || occurs c s'
  end.

(** The keys of the schema of [create_tables]: [id] is a primary key and
    [hh_id] is unique in both tables, every [company_id] is the [id] of a
    stored company, and every [id] came from its sequence. *)
Definition well_formed (s : db) : Prop :=
  NoDup (c_id <$> companies s)
  /\ NoDup (c_hh_id <$> companies s)
  /\ Forall (fun c => c_id c < companies_id_seq s) (companies s)
  /\ NoDup (v_id <$> vacancies s)
  /\ NoDup (v_hh_id <$> vacancies s)
  /\ Forall (fun v => v_id v < vacancies_id_seq s) (vacancies s)
  /\ Forall (fun v => v_company_id v ∈ c_id <$> companies s) (vacancies s).

#[global] Instance well_formed_dec (s : db) : Decision (well_formed s).
Proof. unfold well_formed. apply _. Defined.

(** The salary of the docstring of [get_avg_salary]: the mean of the two
    bounds, or the only bound, as an exact rational. *)
Definition computed_salary (v : vacancy) : option Q :=
  match v_salary_from v, v_salary_to v with
  | Some f, Some t => Some ((inject_Z f + inject_Z t) / 2)%Q
  | Some f, None => Some (inject_Z f)
  | None, Some t => Some (inject_Z t)
  | None, None => None
  end.

(** [sep.join(parts)] and [s.split(c)] for a character [c]: every string
    is, in one way, a list of parts without [c] joined by [c]. *)
Fixpoint join (sep : string) (parts : list string) : string :=
  match parts with
  | [] => EmptyString
  | part :: parts' =>
      match parts' with
      | [] => part
      | _ :: _ => (part ++ sep ++ join sep parts')%string
      end
  end.

Fixpoint split_on (c : ascii) (s : string) : list string :=
  match s with
  | EmptyString => [EmptyString]
  | String d s' =>
      if Ascii.eqb d c then EmptyString :: split_on c s'
      else match split_on c s' with
           | [] => [String d EmptyString]
           | part :: parts => String d part :: parts
           end
  end.

(** The requests for the pages [0, ..., n - 1] of an employer. *)
Definition page_requests (employer_id per_page : Z) (area : option Z)
    (only_with_salary : bool) (n : nat) : list request :=
  (fun page => GetVacancies (page_params employer_id per_page area only_with_salary page))
    <$> range (Z.of_nat n).

(** [bodies] are the answers of the upstream to the requests for the pages
    [0, 1, ...] of an employer, up to the first page [page] at which
    [page + 1] reaches the ["pages"] of the answer (0 when the key is
    missing) or [max_pages]. *)
Definition fetched_pages (vacancies_endpoint : vacancies_params -> result vacancies_body)
    (employer_id per_page max_pages : Z) (area : option Z) (only_with_salary : bool)
    (bodies : list vacancies_body) : Prop :=
  (length bodies <= Z.to_nat max_pages)%nat
  /\ (1 <= max_pages -> bodies <> [])
  /\ forall (i : nat) (body : vacancies_body),
       bodies !! i = Some body ->
       vacancies_endpoint
         (page_params employer_id per_page area only_with_salary (Z.of_nat i)) = Ok body
       /\ ((S i < length bodies)%nat -> Z.of_nat i + 1 < default 0 (body_pages body))
       /\ (S i = length bodies ->
           Z.of_nat i + 1 >= default 0 (body_pages body) \/ Z.of_nat i + 1 = max_pages).

(** The postings of a list of answers: their ["items"], in the order of the
    answers; an answer without the key has none. *)
Definition postings_of (bodies : list vacancies_body) : list vacancy_payload :=
  concat ((fun body => default [] (body_items body)) <$> bodies).

(** A request for a page of postings. *)
Definition is_vacancies_request (rq : request) : Prop :=
  match rq with
  | GetVacancies _ => True
  | _ => False
  end.

(** ** Stores and inputs used in the examples below *)

Definition acme : company :=
  {| c_id := 1; c_hh_id := 42; c_name := "Acme"; c_url := None |}.

Definition posting (id hh : Z) (title : string) (sf st : option Z) : vacancy :=
  {| v_id := id; v_hh_id := hh; v_company_id := 1; v_title := title;
     v_salary_from := sf; v_salary_to := st; v_salary_currency := None;
     v_alternate_url := None; v_published_at := None |}.

(** The end-to-end example of the specification: salaries [(100, 200)] and
    [(None, 300)]. *)
Definition acme_db : db :=
  {| companies := [acme];
     vacancies := [posting 1 501 "Python Developer" (Some 100) (Some 200);
                   posting 2 502 "Java Developer" None (Some 300)];
     companies_id_seq := 2; vacancies_id_seq := 3 |}.

(** One posting whose two bounds are valid [INTEGER]s with a sum that is
    not. *)
Definition wide_range_db : db :=
  {| companies := [acme];
     vacancies := [posting 1 501 "Director" (Some 1500000000) (Some 1000000000)];
     companies_id_seq := 2; vacancies_id_seq := 2 |}.

(** Two employers of the upstream service that carry the same name, with
    one posting each. *)
Definition namesake_db : db :=
  {| companies := [acme; {| c_id := 2; c_hh_id := 43; c_name := "Acme"; c_url := None |}];
     vacancies := [posting 1 501 "Python Developer" (Some 100) (Some 200);
                   {| v_id := 2; v_hh_id := 502; v_company_id := 2;
                      v_title := "Java Developer"; v_salary_from := None;
                      v_salary_to := Some 300; v_salary_currency := None;
                      v_alternate_url := None; v_published_at := None |}];
     companies_id_seq := 3; vacancies_id_seq := 3 |}.

(** A company without postings next to one with a posting. *)
Definition idle_db : db :=
  {| companies := [acme; {| c_id := 2; c_hh_id := 43; c_name := "Zeta"; c_url := None |}];
     vacancies := [{| v_id := 1; v_hh_id := 501; v_company_id := 2;
                      v_title := "Analyst"; v_salary_from := None;
                      v_salary_to := None; v_salary_currency := None;
                      v_alternate_url := None; v_published_at := None |}];
     companies_id_seq := 3; vacancies_id_seq := 2 |}.

Definition titled_db : db :=
  {| companies := [acme];
     vacancies := [posting 1 501 "Python Developer" None None;
                   posting 2 502 "senior PYTHON engineer" None None;
                   posting 3 503 "Java Developer" None None];
     companies_id_seq := 2; vacancies_id_seq := 4 |}.

(** An instance of [fromisoformat] for the examples: it accepts one
    timestamp and rejects every other string. *)
Definition sample_fromisoformat (v : string) : result datetime :=
  if bool_decide (v = "2024-01-15T10:30:00+00:00"%string)
  then Ok {| dt_year := 2024; dt_month := 1; dt_day := 15;
             dt_hour := 10; dt_minute := 30; dt_second := 0;
             dt_utcoffset := Some 0 |}
  else Raise ValueError.

(** A posting of employer 42 (stored in [acme_db]) and one of employer 999
    (not stored). *)
Definition acme_posting : vacancy_payload :=
  {| vac_id := 503; vac_employer := Some {| ref_id := Some 42 |};
     vac_name := Value "Rust Developer"%string;
     vac_salary := Some {| sal_from := Some 100; sal_to := None; sal_currency := Some "RUR"%string |};
     vac_alternate_url := None;
     vac_published_at := Some "2024-01-15T10:30:00Z"%string |}.

Definition orphan_posting : vacancy_payload :=
  {| vac_id := 504; vac_employer := Some {| ref_id := Some 999 |};
     vac_name := Value "Go Developer"%string; vac_salary := None;
     vac_alternate_url := None; vac_published_at := None |}.

Definition acme_renamed : employer_payload :=
  {| emp_id := 42; emp_name := Value "Acme Corp"%string;
     emp_alternate_url := Some "https://hh.ru/employer/42"%string; emp_url := None |}.

Definition zeta_employer : employer_payload :=
  {| emp_id := 77; emp_name := Value "Zeta"%string;
     emp_alternate_url := None; emp_url := None |}.

(** A body of [GET /employers?text=yandex], with one employer. *)
Definition yandex_employers : json :=
  JArr [JObj [("id"%string, JStr "1740"); ("name"%string, JStr "Yandex")]].

Definition yandex_search_body : gmap string json :=
  {[ "items"%string := yandex_employers; "found"%string := JNum 1 ]}.

Definition acme_world : world := {| w_db := acme_db; w_requests := [] |}.

(** An upstream service for the examples: employer 42 is served, every
    other employer request fails; every employer has three pages of
    postings, the first one carrying [acme_posting]. *)
Definition sample_employers_endpoint (employer_id : Z) : result employer_payload :=
  if employer_id =? 42 then Ok acme_renamed else Raise HTTPError.

Definition sample_bodies (page : Z) : vacancies_body :=
  {| body_items := Some (if page =? 0 then [acme_posting] else []);
     body_pages := Some 3 |}.

Definition sample_vacancies_endpoint (params : vacancies_params) : result vacancies_body :=
  Ok (sample_bodies (p_page params)).

Definition sample_seeds : list EmployerSeed :=
  [{| hh_id := 42; note := "Acme" |}; {| hh_id := 77; note := "Zeta" |};
   {| hh_id := 42; note := "Acme" |}].

(** [acme_db] after a batch that renames Acme and adds Zeta, and after a
    batch of postings for Acme. *)
Definition acme_db_companies : db :=
  after acme_db (upsert_companies [acme_renamed; zeta_employer] acme_db).

Definition acme_db_postings : db :=
  after acme_db (insert_vacancies sample_fromisoformat [acme_posting; orphan_posting] acme_db).

(** An upstream whose second page of postings fails. *)
Definition failing_vacancies_endpoint (params : vacancies_params) : result vacancies_body :=
  if p_page params =? 1 then Raise HTTPError else Ok (sample_bodies (p_page params)).

(** An upstream that serves every employer under the name Acme Corp. *)
Definition steady_employers_endpoint (employer_id : Z) : result employer_payload :=
  Ok {| emp_id := employer_id; emp_name := Value "Acme Corp"%string;
        emp_alternate_url := None; emp_url := None |}.

Definition acme_seeds : list EmployerSeed := [{| hh_id := 42; note := "Acme" |}].

(** ** The order of [ORDER BY c.name, v.title] *)

Lemma ascii_compare_refl (a : ascii) : Ascii.compare a a = Eq.
Proof. unfold Ascii.compare. apply N.compare_refl. Qed.

Lemma string_compare_refl (s : string) : String.compare s s = Eq.
Proof. induction s as [|a s IH]; simpl; [done|]. by rewrite ascii_compare_refl. Qed.

Lemma string_compare_lt_trans (a b c : string) :
  String.compare a b = Lt -> String.compare b c = Lt -> String.compare a c = Lt.
Proof.
  revert b c. induction a as [|x a IH]; intros [|y b] [|z c]; simpl; try done.
  destruct (Ascii.compare x y) eqn:Hxy; try done.
  - apply Ascii.compare_eq_iff in Hxy as ->.
    destruct (Ascii.compare y z) eqn:Hyz; try done. apply IH.
  - intros _. destruct (Ascii.compare y z) eqn:Hyz; try done.
    + apply Ascii.compare_eq_iff in Hyz as <-. by rewrite Hxy.
    + intros _. unfold Ascii.compare in *.
      rewrite N.compare_lt_iff in Hxy, Hyz.
      assert (H : (N_of_ascii x < N_of_ascii z)%N) by lia.
      apply N.compare_lt_iff in H. by rewrite H.
Qed.

Lemma string_compare_gt_lt (a b : string) :
  String.compare a b = Gt -> String.compare b a = Lt.
Proof. intros H. rewrite String.compare_antisym, H. done. Qed.

Lemma string_leb_trans (a b c : string) :
  String.leb a b = true -> String.leb b c = true -> String.leb a c = true.
Proof.
  unfold String.leb.
  destruct (String.compare a b) eqn:Hab; try done; intros _.
  - apply String.compare_eq_iff in Hab as ->. done.
  - destruct (String.compare b c) eqn:Hbc; try done; intros _.
    + apply String.compare_eq_iff in Hbc as <-. by rewrite Hab.
    + by rewrite (string_compare_lt_trans a b c).
Qed.

Lemma text_pair_leb_total (a b : string * string) :
  text_pair_leb a b = true \/ text_pair_leb b a = true.
Proof.
  unfold text_pair_leb.
  destruct (String.compare a.1 b.1) eqn:Hab.
  - apply String.compare_eq_iff in Hab. rewrite Hab, string_compare_refl.
    apply String.leb_total.
  - by left.
  - right. by rewrite (string_compare_gt_lt _ _ Hab).
Qed.

Lemma text_pair_leb_trans (a b c : string * string) :
  text_pair_leb a b = true -> text_pair_leb b c = true -> text_pair_leb a c = true.
Proof.
  unfold text_pair_leb.
  destruct (String.compare a.1 b.1) eqn:Hab; try done.
  - apply String.compare_eq_iff in Hab. rewrite Hab.
    destruct (String.compare b.1 c.1); try done. apply string_leb_trans.
  - intros _. destruct (String.compare b.1 c.1) eqn:Hbc; try done.
    + apply String.compare_eq_iff in Hbc. rewrite <- Hbc, Hab. done.
    + intros _. by rewrite (string_compare_lt_trans _ _ _ Hab Hbc).
Qed.

(** ** [ORDER BY] sorts, and commutes with [WHERE] *)

Section Sorting.
Context {A : Type} (le : A -> A -> bool).
Hypothesis le_total : forall x y, le x y = true \/ le y x = true.
Hypothesis le_trans : forall x y z, le x y = true -> le y z = true -> le x z = true.

Lemma insert_by_elem (x y : A) (l : list A) :
  y ∈ insert_by le x l <-> y = x \/ y ∈ l.
Proof.
  induction l as [|z l IH]; simpl.
  - rewrite list_elem_of_singleton, elem_of_nil. tauto.
  - destruct (le x z); rewrite !elem_of_cons; [tauto|].
    rewrite IH. tauto.
Qed.

Lemma insert_by_sorted (x : A) (l : list A) :
  sorted_by le l -> sorted_by le (insert_by le x l).
Proof.
  unfold sorted_by. induction 1 as [|z l Hl IH Hz]; simpl.
  - repeat constructor.
  - destruct (le x z) eqn:Hxz.
    + constructor; [by constructor|]. constructor; [done|].
      rewrite List.Forall_forall in Hz |- *. intros y Hy.
      apply le_trans with z; [done|]. by apply Hz.
    + constructor; [done|].
      rewrite List.Forall_forall in Hz |- *. intros y Hy.
      rewrite <- list_elem_of_In in Hy. apply insert_by_elem in Hy as [->|Hy].
      * destruct (le_total x z) as [H|H]; congruence.
      * apply Hz. by rewrite <- list_elem_of_In.
Qed.

Lemma order_by_sorted (l : list A) : sorted_by le (order_by le l).
Proof.
  induction l as [|x l IH]; simpl; [constructor|]. by apply insert_by_sorted.
Qed.

Lemma order_by_elem (y : A) (l : list A) : y ∈ order_by le l <-> y ∈ l.
Proof.
  induction l as [|x l IH]; simpl; [done|].
  rewrite insert_by_elem, elem_of_cons, IH. done.
Qed.

Lemma insert_by_head (x : A) (l : list A) :
  Forall (fun y => le x y = true) l -> insert_by le x l = x :: l.
Proof. destruct 1 as [|y l Hy _]; simpl; [done|]. by rewrite Hy. Qed.

Lemma filter_insert_by (p : A -> bool) (x : A) (l : list A) :
  sorted_by le l ->
  List.filter p (insert_by le x l)
  = if p x then insert_by le x (List.filter p l) else List.filter p l.
Proof.
  unfold sorted_by. induction 1 as [|z l Hl IH Hz]; simpl.
  - by destruct (p x).
  - destruct (le x z) eqn:Hxz; simpl.
    + destruct (p x) eqn:Hpx; [|done].
      destruct (p z) eqn:Hpz; simpl; [by rewrite Hxz|].
      symmetry. apply insert_by_head.
      rewrite List.Forall_forall in Hz |- *. intros y Hy.
      apply filter_In in Hy as [Hy _].
      apply le_trans with z; [done|]. by apply Hz.
    + rewrite IH. destruct (p z) eqn:Hpz; simpl.
      * destruct (p x); [|done]. by rewrite Hxz.
      * done.
Qed.

Lemma filter_order_by (p : A -> bool) (l : list A) :
  List.filter p (order_by le l) = order_by le (List.filter p l).
Proof.
  induction l as [|x l IH]; simpl; [done|].
  rewrite filter_insert_by by apply order_by_sorted.
  rewrite IH. by destruct (p x).
Qed.
End Sorting.

(** ** The [result] monad over lists *)

Lemma mapM_result_Ok {A B : Type} (f : A -> result B) (l : list A) (ys : list B) :
  mapM f l = Ok ys <-> Forall2 (fun x y => f x = Ok y) l ys.
Proof.
  revert ys. induction l as [|x l IH]; intros ys; simpl.
  - split; [intros [= <-]; constructor | by inversion 1].
  - split.
    + destruct (f x) as [y|e] eqn:Hx; simpl; [|done].
      destruct (mapM f l) as [k|e] eqn:Hl; simpl; [|done].
      intros [= <-]. constructor; [done|]. by apply IH.
    + inversion 1 as [|? y ? k Hx Hl]; subst. rewrite Hx; simpl.
      apply IH in Hl. rewrite Hl. done.
Qed.

Lemma mapM_result_total {A B : Type} (f : A -> result B) (l : list A) :
  (forall x, x ∈ l -> exists y, f x = Ok y) -> exists ys, mapM f l = Ok ys.
Proof.
  induction l as [|x l IH]; intros H; simpl; [by eexists|].
  destruct (H x) as [y Hy]; [by left|].
  destruct IH as [ys Hys]; [intros z Hz; apply H; by right|].
  rewrite Hy; simpl. rewrite Hys; simpl. by eexists.
Qed.

Lemma mapM_result_elem {A B : Type} (f : A -> result B) (l : list A) (ys : list B) (x : A) :
  mapM f l = Ok ys -> x ∈ l -> exists y, f x = Ok y.
Proof.
  rewrite mapM_result_Ok. intros H Hx.
  apply list_elem_of_lookup in Hx as [i Hi].
  destruct (Forall2_lookup_l _ _ _ i x H Hi) as (y & _ & Hy). by eexists.
Qed.

Lemma filter_rows_pure {A : Type} (cond : A -> result bool) (p : A -> bool) (l : list A) :
  (forall x, x ∈ l -> cond x = Ok (p x)) ->
  filter_rows cond l = Ok (List.filter p l).
Proof.
  induction l as [|x l IH]; intros H; simpl; [done|].
  rewrite (H x) by (by left); simpl.
  rewrite IH by (intros z Hz; apply H; by right); simpl.
  by destruct (p x).
Qed.

Lemma filter_fmap_swap {A B : Type} (p : B -> bool) (g : A -> B) (l : list A) :
  List.filter p (g <$> l) = g <$> List.filter (fun a => p (g a)) l.
Proof.
  induction l as [|x l IH]; csimpl; [done|].
  rewrite IH. by destruct (p (g x)).
Qed.

Lemma sorted_by_fmap {A B : Type} (leA : A -> A -> bool) (leB : B -> B -> bool)
    (g : A -> B) (l : list A) :
  (forall x y, leB (g x) (g y) = leA x y) ->
  sorted_by leA l -> sorted_by leB (g <$> l).
Proof.
  intros Hg. unfold sorted_by. induction 1 as [|x l Hl IH Hx]; csimpl; constructor; [done|].
  rewrite List.Forall_forall in Hx |- *. intros y Hy.
  rewrite <- list_elem_of_In in Hy. apply list_elem_of_fmap in Hy as (z & -> & Hz).
  rewrite Hg. apply Hx. by rewrite <- list_elem_of_In.
Qed.

(** ** The salary queries *)

Lemma name_title_leb_total (a b : company * vacancy) :
  name_title_leb a b = true \/ name_title_leb b a = true.
Proof. apply text_pair_leb_total. Qed.

Lemma name_title_leb_trans (a b c : company * vacancy) :
  name_title_leb a b = true -> name_title_leb b c = true -> name_title_leb a c = true.
Proof. apply text_pair_leb_trans. Qed.

Lemma get_all_vacancies_sorted (s : db) : sorted_by view_leb (get_all_vacancies s).
Proof.
  unfold get_all_vacancies.
  apply sorted_by_fmap with (leA := name_title_leb); [done|].
  apply order_by_sorted; [apply name_title_leb_total | apply name_title_leb_trans].
Qed.

Lemma join_row_vacancy (s : db) (r : company * vacancy) :
  r ∈ vacancies_join_companies s ->
  r.2 ∈ vacancies s /\ r.1 ∈ companies s /\ c_id r.1 = v_company_id r.2.
Proof.
  unfold vacancies_join_companies. intros H.
  apply list_elem_of_bind in H as (v & H & Hv).
  apply list_elem_of_bind in H as (c & H & Hc).
  apply list_elem_of_singleton in H as ->.
  apply list_elem_of_filter in Hc as [Hid Hc]. done.
Qed.

Lemma salary_case_in_range (f t : Z) :
  in_int4 (f + t) = true ->
  salary_case (Some f) (Some t) = Ok (Some (inject_Z (f + t) / 2)%Q).
Proof. intros H. unfold salary_case, int4pl. rewrite H. done. Qed.

Lemma salary_case_defined (sf st : option Z) (x : Q) :
  salary_case sf st = Ok (Some x) ->
  match sf, st with
  | Some f, Some t => (x == (inject_Z f + inject_Z t) / 2)%Q
  | Some f, None => (x == inject_Z f)%Q
  | None, Some t => (x == inject_Z t)%Q
  | None, None => False
  end.
Proof.
  unfold salary_case, int4pl. destruct sf as [f|], st as [t|]; simpl.
  - destruct (in_int4 (f + t)); simpl; [|done]. intros [= <-].
    by rewrite inject_Z_plus.
  - intros [= <-]. apply Qmult_1_r.
  - intros [= <-]. apply Qmult_1_r.
  - done.
Qed.

Lemma get_avg_salary_sound (s : db) (avg_salary : option Q) :
  get_avg_salary s = Ok avg_salary ->
  exists xs,
    Forall2 (fun v x => salary_case (v_salary_from v) (v_salary_to v) = Ok x) (vacancies s) xs
    /\ avg_salary = sql_avg xs.
Proof.
  unfold get_avg_salary, select_avg_salary.
  destruct (mapM _ (vacancies s)) as [xs|e] eqn:Hxs; simpl; [|done].
  intros [= <-]. exists xs. split; [|done]. by apply mapM_result_Ok.
Qed.

Lemma get_avg_salary_in_range (s : db) :
  (forall v f t, v ∈ vacancies s -> v_salary_from v = Some f -> v_salary_to v = Some t ->
                 in_int4 (f + t) = true) ->
  exists avg_salary, get_avg_salary s = Ok avg_salary.
Proof.
  intros H. unfold get_avg_salary, select_avg_salary.
  destruct (mapM_result_total
              (fun v => salary_case (v_salary_from v) (v_salary_to v)) (vacancies s))
    as [xs Hxs].
  - intros v Hv. destruct (v_salary_from v) as [f|] eqn:Hf, (v_salary_to v) as [t|] eqn:Ht;
      simpl; eauto.
    unfold int4pl. rewrite (H v f t Hv Hf Ht). simpl. eauto.
  - rewrite Hxs. simpl. eauto.
Qed.

(** The end-to-end example of the specification: the average is 225. *)
Lemma get_avg_salary_acme :
  exists a, get_avg_salary acme_db = Ok (Some a) /\ (a == 225)%Q.
Proof. eexists. split; [reflexivity|]. reflexivity. Qed.

(** C1, at the failing input: both bounds of the posting are valid
    [INTEGER]s, their sum is not, and the [CASE] expression, hence
    [get_avg_salary], raises "integer out of range" instead of giving the
    mean 1250000000. *)
Theorem get_avg_salary_wide_range :
  in_int4 1500000000 = true /\ in_int4 1000000000 = true
  /\ salary_case (Some 1500000000) (Some 1000000000) = Raise NumericValueOutOfRange
  /\ get_avg_salary wide_range_db = Raise NumericValueOutOfRange.
Proof. repeat split; reflexivity. Qed.

(** C2: [get_vacancies_with_higher_salary] raises exactly when
    [get_avg_salary] does; otherwise it returns the rows of
    [get_all_vacancies], in the same order (company name, then title,
    ascending), whose computed salary is defined and strictly greater than
    the average returned by [get_avg_salary] on the same tables. A row with
    neither bound is never returned, and nothing is returned when the
    average is [NULL]. *)
Theorem get_vacancies_with_higher_salary_spec (s : db) :
  match get_avg_salary s with
  | Raise e => get_vacancies_with_higher_salary s = Raise e
  | Ok avg_salary =>
      exists rows,
        get_vacancies_with_higher_salary s = Ok rows
        /\ rows = List.filter (salary_above avg_salary) (get_all_vacancies s)
        /\ sublist rows (get_all_vacancies s)
        /\ sorted_by view_leb rows
        /\ forall r, r ∈ rows ->
             exists a x,
               avg_salary = Some a
               /\ salary_case (salary_from r) (salary_to r) = Ok (Some x)
               /\ (a < x)%Q
               /\ ~ (salary_from r = None /\ salary_to r = None)
  end.
Proof.
  destruct (get_avg_salary s) as [avg_salary|e] eqn:Havg;
    unfold get_vacancies_with_higher_salary, get_avg_salary in *;
    rewrite Havg; simpl; [|done].
  assert (Hrows : get_vacancies_with_higher_salary s
                  = Ok (List.filter (salary_above avg_salary) (get_all_vacancies s))).
  { unfold get_vacancies_with_higher_salary. rewrite Havg. simpl.
    rewrite (filter_rows_pure _ (fun r => salary_above avg_salary (select_view r))).
    - simpl. unfold get_all_vacancies.
      rewrite filter_fmap_swap, filter_order_by;
        [done | apply name_title_leb_total | apply name_title_leb_trans].
    - intros r Hr. apply join_row_vacancy in Hr as (Hv & _ & _).
      unfold select_avg_salary in Havg.
      destruct (mapM _ (vacancies s)) as [xs|e] eqn:Hxs; simpl in Havg; [|done].
      destruct (mapM_result_elem _ _ _ _ Hxs Hv) as [x Hx].
      unfold higher_than, salary_above. simpl. rewrite Hx. done. }
  unfold get_vacancies_with_higher_salary in Hrows. rewrite Havg in Hrows. simpl in Hrows.
  eexists. split; [exact Hrows|]. split; [done|]. split; [|split].
  - clear Hrows. induction (get_all_vacancies s) as [|r l IH]; simpl; [constructor|].
    destruct (salary_above avg_salary r); [by apply sublist_skip | by apply sublist_cons].
  - clear Hrows. pose proof (get_all_vacancies_sorted s) as Hs. unfold sorted_by in *.
    revert Hs. generalize (get_all_vacancies s). intros l0 Hs.
    induction Hs as [|r l Hl IH Hr]; simpl; [constructor|].
    destruct (salary_above avg_salary r); [|done]. constructor; [done|].
    rewrite List.Forall_forall in Hr |- *. intros y Hy. apply filter_In in Hy as [Hy _]. auto.
  - intros r Hr. rewrite list_elem_of_In in Hr. apply filter_In in Hr as [_ Hr].
    unfold salary_above in Hr.
    destruct (salary_case (salary_from r) (salary_to r)) as [[x|]|] eqn:Hx; try done.
    destruct avg_salary as [a|]; simpl in Hr; [|done].
    exists a, x. repeat split; try done.
    + unfold Qlt_bool in Hr. destruct (Qle_bool x a) eqn:Hle; [done|].
      apply Qnot_le_lt. intros Hc. apply Qle_bool_iff in Hc. congruence.
    + intros [Hf Ht]. rewrite Hf, Ht in Hx. done.
Qed.

(** ** [get_companies_and_vacancies_count] *)

(** A company without postings keeps its row, with count 0, after the
    companies that have postings. *)
Lemma get_companies_and_vacancies_count_idle :
  get_companies_and_vacancies_count idle_db = [("Zeta"%string, 1); ("Acme"%string, 0)].
Proof. reflexivity. Qed.

(** C3, at the failing input: two stored companies (distinct [id] and
    [hh_id]) that carry the same name, one posting each. [GROUP BY c.name]
    merges them: the result has one row for the two companies, with the sum
    of their counts. *)
Theorem get_companies_and_vacancies_count_namesakes :
  length (companies namesake_db) = 2%nat
  /\ NoDup (c_id <$> companies namesake_db)
  /\ NoDup (c_hh_id <$> companies namesake_db)
  /\ get_companies_and_vacancies_count namesake_db = [("Acme"%string, 2)].
Proof.
  split; [reflexivity|]. split; [|split; [|reflexivity]].
  - by apply (bool_decide_unpack _).
  - by apply (bool_decide_unpack _).
Qed.

(** ** [get_vacancies_with_keyword] *)

(** The examples of the specification: ["python"] finds the two titles that
    contain it in any case, and not the third one. *)
Lemma get_vacancies_with_keyword_python :
  fmap (M := result) (fmap (M := list) vacancy_title)
       (get_vacancies_with_keyword titled_db "python")
  = Ok ["Python Developer"%string; "senior PYTHON engineer"%string].
Proof. reflexivity. Qed.

(** The empty keyword finds every posting. *)
Lemma get_vacancies_with_keyword_empty :
  get_vacancies_with_keyword titled_db "" = Ok (get_all_vacancies titled_db).
Proof. reflexivity. Qed.

(** A keyword with a NUL character is refused before the query is sent. *)
Lemma get_vacancies_with_keyword_nul :
  get_vacancies_with_keyword titled_db (String zero "python") = Raise ValueError.
Proof. reflexivity. Qed.

(** C6, at the failing input: the keyword ["_"] occurs in no title of the
    store, and [ILIKE '%_%'] returns all of them, because the keyword is
    pasted into the pattern with its wildcard meaning. *)
Theorem get_vacancies_with_keyword_underscore :
  Forall (fun r => contains_keyword (vacancy_title r) "_" = false) (get_all_vacancies titled_db)
  /\ get_vacancies_with_keyword titled_db "_" = Ok (get_all_vacancies titled_db)
  /\ length (get_all_vacancies titled_db) = 3%nat.
Proof.
  split; [|split; reflexivity].
  repeat constructor.
Qed.

(** ** Facts about [ON CONFLICT DO UPDATE] *)

Module UpsertFacts.
Import Upsert.
Section Table.
Context {Row Rec : Type}.
Variable row_key : Row -> Z.
Variable key : Rec -> Z.
Variable constraints : Row -> result unit.
Variable inserted : Z -> Row -> Rec.
Variable updated : Row -> Rec -> Rec.

Hypothesis key_inserted : forall i r, key (inserted i r) = row_key r.
Hypothesis key_updated : forall r c, key (updated r c) = key c.
Hypothesis updated_updated : forall r r' c, updated r (updated r' c) = updated r c.
Hypothesis updated_inserted : forall i r, updated r (inserted i r) = inserted i r.

#[local] Abbreviation upsert_row := (upsert_row row_key key constraints inserted updated).
#[local] Abbreviation upsert_rows := (upsert_rows row_key key constraints inserted updated).
#[local] Abbreviation statement := (statement row_key key constraints inserted updated).
#[local] Abbreviation statements := (statements row_key key constraints inserted updated).
#[local] Abbreviation execute_values := (execute_values row_key key constraints inserted updated).
#[local] Abbreviation last_row := (last_row row_key).
#[local] Abbreviation overwrite_last := (overwrite_last row_key key updated).
#[local] Abbreviation touch r := (fun c => if key c =? row_key r then updated r c else c).

(** The two outcomes of a proposed row that is accepted. *)
Lemma upsert_row_Ok (st st' : list Rec * Z) (r : Row) :
  upsert_row st r = Ok st' ->
  constraints r = Ok ()
  /\ st'.2 = st.2 + 1
  /\ ((Exists (fun c => key c = row_key r) st.1 /\ st'.1 = touch r <$> st.1)
      \/ (Forall (fun c => key c <> row_key r) st.1 /\ st'.1 = st.1 ++ [inserted st.2 r])).
Proof.
  unfold Upsert.upsert_row, nextval.
  destruct (st.2 <=? int4_max); simpl; [|done].
  destruct (constraints r) as [[]|]; simpl; [|done].
  destruct (existsb _ st.1) eqn:Hex; intros [= <-]; simpl; (split; [done|]); (split; [done|]).
  - left. split; [|done]. apply existsb_exists in Hex as (c & Hc & Hk).
    apply Exists_exists. exists c. split; [by apply list_elem_of_In|lia].
  - right. split; [|done]. apply Forall_forall. intros c Hc Hk.
    assert (existsb (fun c => key c =? row_key r) st.1 = true); [|congruence].
    apply existsb_exists. exists c. split; [by apply list_elem_of_In|lia].
Qed.

(** After a row is accepted, the stored row with its key carries its
    values. *)
Lemma upsert_row_carries (st st' : list Rec * Z) (r : Row) (c : Rec) :
  upsert_row st r = Ok st' -> c ∈ st'.1 -> key c = row_key r -> updated r c = c.
Proof.
  destruct st' as [t' q']. simpl.
  intros H Hc Hk. apply upsert_row_Ok in H as (_ & _ & H). simpl in H. destruct H as [[_ ->]|[Hno ->]].
  - apply list_elem_of_fmap in Hc as (c0 & -> & _).
    destruct (key c0 =? row_key r) eqn:E; [by rewrite updated_updated|].
    lia.
  - apply elem_of_app in Hc as [Hc|Hc].
    + rewrite Forall_forall in Hno. by destruct (Hno c Hc).
    + apply list_elem_of_singleton in Hc as ->. apply updated_inserted.
Qed.

(** A stored row with another key is a row that was there before. *)
Lemma upsert_row_other (st st' : list Rec * Z) (r : Row) (c : Rec) :
  upsert_row st r = Ok st' -> c ∈ st'.1 -> key c <> row_key r -> c ∈ st.1.
Proof.
  destruct st' as [t' q']. simpl.
  intros H Hc Hk. apply upsert_row_Ok in H as (_ & _ & H). simpl in H. destruct H as [[_ ->]|[_ ->]].
  - apply list_elem_of_fmap in Hc as (c0 & -> & Hc0).
    destruct (key c0 =? row_key r) eqn:E; [|done].
    rewrite key_updated in Hk. lia.
  - apply elem_of_app in Hc as [Hc|Hc]; [done|].
    apply list_elem_of_singleton in Hc as ->. by rewrite key_inserted in Hk.
Qed.

(** Keys are never lost, and the key of an accepted row is stored. *)
Lemma upsert_row_keeps (st st' : list Rec * Z) (r : Row) (c : Rec) :
  upsert_row st r = Ok st' -> c ∈ st.1 -> exists c', c' ∈ st'.1 /\ key c' = key c.
Proof.
  destruct st' as [t' q']. simpl.
  intros H Hc. apply upsert_row_Ok in H as (_ & _ & H). simpl in H. destruct H as [[_ ->]|[_ ->]].
  - exists (touch r c). split; [apply list_elem_of_fmap; eauto|].
    destruct (key c =? row_key r); [apply key_updated|done].
  - exists c. split; [apply elem_of_app; by left|done].
Qed.

Lemma upsert_row_stores (st st' : list Rec * Z) (r : Row) :
  upsert_row st r = Ok st' -> exists c, c ∈ st'.1 /\ key c = row_key r.
Proof.
  destruct st' as [t' q']. simpl.
  intros H. apply upsert_row_Ok in H as (_ & _ & H). simpl in H. destruct H as [[Hex ->]|[_ ->]].
  - apply Exists_exists in Hex as (c & Hc & Hk).
    exists (touch r c). split; [apply list_elem_of_fmap; eauto|].
    destruct (key c =? row_key r); [by rewrite key_updated|done].
  - exists (inserted st.2 r). split; [|apply key_inserted].
    apply elem_of_app. right. by apply list_elem_of_singleton.
Qed.

Lemma last_row_Some (k : Z) (rows : list Row) (r : Row) :
  last_row k rows = Some r -> r ∈ rows /\ row_key r = k.
Proof.
  induction rows as [|r0 rows IH]; simpl; [done|].
  destruct (last_row k rows) as [r'|].
  - intros [= ->]. destruct IH as [H1 H2]; [done|]. split; [by right|done].
  - destruct (row_key r0 =? k) eqn:E; [|done]. intros [= ->]. split; [by left|lia].
Qed.

Lemma last_row_None (k : Z) (rows : list Row) (r : Row) :
  last_row k rows = None -> r ∈ rows -> row_key r <> k.
Proof.
  induction rows as [|r0 rows IH]; simpl; [by intros _ ?%elem_of_nil|].
  destruct (last_row k rows) as [r'|]; [done|].
  destruct (row_key r0 =? k) eqn:E; [done|]. intros _ [->|H]%elem_of_cons; [lia|auto].
Qed.

Lemma upsert_rows_other (rows : list Row) (st st' : list Rec * Z) (c : Rec) :
  upsert_rows st rows = Ok st' -> c ∈ st'.1 ->
  (forall r, r ∈ rows -> row_key r <> key c) -> c ∈ st.1.
Proof.
  revert st. induction rows as [|r rows IH]; intros st; simpl.
  - by intros [= ->].
  - destruct (upsert_row st r) as [st1|] eqn:H1; simpl; [|done].
    intros H Hc Hk. eapply upsert_row_other; [done| |].
    + eapply IH; [done|done|]. intros r' Hr'. apply Hk. by right.
    + intros E. apply (Hk r); [by left|done].
Qed.

Lemma upsert_rows_keeps (rows : list Row) (st st' : list Rec * Z) (c : Rec) :
  upsert_rows st rows = Ok st' -> c ∈ st.1 -> exists c', c' ∈ st'.1 /\ key c' = key c.
Proof.
  revert st c. induction rows as [|r rows IH]; intros st c; simpl.
  - intros [= ->]. eauto.
  - destruct (upsert_row st r) as [st1|] eqn:H1; simpl; [|done].
    intros H Hc. destruct (upsert_row_keeps _ _ _ _ H1 Hc) as (c1 & Hc1 & <-). eauto.
Qed.

Lemma upsert_rows_stores (rows : list Row) (st st' : list Rec * Z) (r : Row) :
  upsert_rows st rows = Ok st' -> r ∈ rows -> exists c, c ∈ st'.1 /\ key c = row_key r.
Proof.
  revert st. induction rows as [|r0 rows IH]; intros st; simpl.
  - by intros _ ?%elem_of_nil.
  - destruct (upsert_row st r0) as [st1|] eqn:H1; simpl; [|done].
    intros H [->|Hr]%elem_of_cons; [|eauto].
    destruct (upsert_row_stores _ _ _ H1) as (c1 & Hc1 & <-).
    eapply upsert_rows_keeps; eauto.
Qed.

(** After the rows are accepted, a stored row whose key was proposed
    carries the values of the last proposal for that key. *)
Lemma upsert_rows_carries (rows : list Row) (st st' : list Rec * Z) (c : Rec) (r : Row) :
  upsert_rows st rows = Ok st' -> c ∈ st'.1 -> last_row (key c) rows = Some r ->
  updated r c = c.
Proof.
  revert st. induction rows as [|r0 rows IH]; intros st; simpl; [done|].
  destruct (upsert_row st r0) as [st1|] eqn:H1; simpl; [|done].
  intros H Hc. destruct (last_row (key c) rows) as [r'|] eqn:Hlast.
  - intros [= ->]. eauto.
  - destruct (row_key r0 =? key c) eqn:E; [|done]. intros [= ->].
    eapply upsert_row_carries; [done| |lia].
    eapply upsert_rows_other; [done|done|]. intros r' Hr'. by eapply last_row_None.
Qed.

(** When every proposed key is stored already, the rows are overwritten
    in place. *)
Lemma upsert_rows_present (rows : list Row) (st st' : list Rec * Z) :
  (forall r, r ∈ rows -> exists c, c ∈ st.1 /\ key c = row_key r) ->
  upsert_rows st rows = Ok st' -> st'.1 = overwrite_last rows <$> st.1.
Proof.
  revert st. induction rows as [|r0 rows IH]; intros st Hin; simpl.
  - intros [= <-]. unfold Upsert.overwrite_last. simpl. by rewrite list_fmap_id.
  - destruct (upsert_row st r0) as [st1|] eqn:H1; simpl; [|done].
    intros H. pose proof H1 as H1'.
    apply upsert_row_Ok in H1 as (_ & _ & [[_ E1]|[Hno _]]).
    + rewrite (IH st1); [|
        intros r Hr; destruct (Hin r) as (c & Hc & Hk); [by right|];
        destruct (upsert_row_keeps _ _ _ _ H1' Hc) as (c' & ? & ?); exists c'; split; [done|congruence] | done].
      rewrite E1, <- list_fmap_compose. apply list_fmap_ext. intros _ c _. simpl.
      unfold Upsert.overwrite_last. simpl.
      assert (Hkey : key (touch r0 c) = key c).
      { destruct (key c =? row_key r0); [apply key_updated|done]. }
      rewrite Hkey. destruct (last_row (key c) rows) as [r'|].
      * destruct (key c =? row_key r0); [apply updated_updated|done].
      * rewrite (Z.eqb_sym (row_key r0)). by destruct (key c =? row_key r0).
    + destruct (Hin r0) as (c & Hc & Hk); [by left|].
      rewrite Forall_forall in Hno. by destruct (Hno c Hc).
Qed.

(** Proposing accepted rows once more leaves the table as it is. *)
Lemma upsert_rows_idem (rows : list Row) (st st1 st2 : list Rec * Z) :
  upsert_rows st rows = Ok st1 -> upsert_rows st1 rows = Ok st2 -> st2.1 = st1.1.
Proof.
  intros H1 H2. rewrite (upsert_rows_present rows st1 st2); [|
    intros r Hr; by eapply upsert_rows_stores | done].
  rewrite <- (list_fmap_id st1.1) at 2. apply list_fmap_ext. intros i c Hc. simpl.
  apply list_elem_of_lookup_2 in Hc.
  unfold Upsert.overwrite_last. destruct (last_row (key c) rows) as [r|] eqn:Hl; [|done].
  eapply upsert_rows_carries; [exact H1|exact Hc|exact Hl].
Qed.

(** A property of the stored rows that every inserted and every
    overwritten row has is kept. *)
Lemma upsert_rows_Forall (P : Rec -> Prop) (rows : list Row) (st st' : list Rec * Z) :
  (forall i r, r ∈ rows -> P (inserted i r)) ->
  (forall r c, r ∈ rows -> P (updated r c)) ->
  upsert_rows st rows = Ok st' -> Forall P st.1 -> Forall P st'.1.
Proof.
  revert st. induction rows as [|r0 rows IH]; intros st Hi Hu; simpl.
  - by intros [= <-].
  - destruct (upsert_row st r0) as [st1|] eqn:H1; simpl; [|done].
    intros H HP. eapply IH; [| |done|].
    + intros i r Hr. apply Hi. by right.
    + intros r c Hr. apply Hu. by right.
    + apply upsert_row_Ok in H1 as (_ & _ & [[_ ->]|[_ ->]]).
      * apply Forall_fmap. eapply Forall_impl; [done|]. intros c Hc. simpl.
        destruct (key c =? row_key r0); [apply Hu; by left|done].
      * apply Forall_app. split; [done|]. constructor; [|done]. apply Hi. by left.
Qed.

(** The page structure only adds refusals. *)
Lemma upsert_rows_app (a b : list Row) (st : list Rec * Z) :
  upsert_rows st (a ++ b) = st' ← upsert_rows st a; upsert_rows st' b.
Proof.
  revert st. induction a as [|r a IH]; intros st; simpl; [done|].
  destruct (upsert_row st r) as [st1|]; simpl; [apply IH|done].
Qed.

Lemma statement_upsert_rows (page : list Row) (touched : gset Z) (st st' : list Rec * Z) :
  statement touched st page = Ok st' -> upsert_rows st page = Ok st'.
Proof.
  revert touched st. induction page as [|r page IH]; intros touched st; simpl; [done|].
  case_bool_decide; [done|].
  destruct (upsert_row st r) as [st1|]; simpl; [apply IH|done].
Qed.

Lemma statements_upsert_rows (pages : list (list Row)) (st st' : list Rec * Z) :
  statements st pages = Ok st' -> upsert_rows st (concat pages) = Ok st'.
Proof.
  revert st. induction pages as [|page pages IH]; intros st; simpl; [done|].
  destruct (statement ∅ st page) as [st1|] eqn:H1; simpl; [|done].
  intros H. rewrite upsert_rows_app, (statement_upsert_rows _ _ _ _ H1). simpl. by apply IH.
Qed.

Lemma concat_paginate_fuel (fuel n : nat) (l : list Row) :
  (0 < n)%nat -> (length l <= fuel)%nat -> concat (paginate_fuel fuel n l) = l.
Proof.
  intros Hn. revert l. induction fuel as [|fuel IH]; intros l Hl.
  - destruct l; [done|simpl in Hl; lia].
  - destruct l as [|x l]; [done|].
    change (paginate_fuel (S fuel) n (x :: l))
      with (take n (x :: l) :: paginate_fuel fuel n (drop n (x :: l))).
    simpl concat. rewrite IH, take_drop; [done|].
    rewrite length_drop. simpl in *. lia.
Qed.

Lemma execute_values_upsert_rows (rows : list Row) (st st' : list Rec * Z) :
  execute_values st rows = Ok st' -> upsert_rows st rows = Ok st'.
Proof.
  unfold Upsert.execute_values, paginate. intros H.
  apply statements_upsert_rows in H. by rewrite concat_paginate_fuel in H by lia.
Qed.

Lemma execute_values_idem (rows : list Row) (st st1 st2 : list Rec * Z) :
  execute_values st rows = Ok st1 -> execute_values st1 rows = Ok st2 -> st2.1 = st1.1.
Proof.
  intros H1%execute_values_upsert_rows H2%execute_values_upsert_rows.
  by eapply upsert_rows_idem.
Qed.

Lemma execute_values_Forall (P : Rec -> Prop) (rows : list Row) (st st' : list Rec * Z) :
  (forall i r, r ∈ rows -> P (inserted i r)) ->
  (forall r c, r ∈ rows -> P (updated r c)) ->
  execute_values st rows = Ok st' -> Forall P st.1 -> Forall P st'.1.
Proof.
  intros Hi Hu H%execute_values_upsert_rows. by eapply upsert_rows_Forall.
Qed.
End Table.
End UpsertFacts.

(** ** The two upserts of [src/loader.py] *)

Lemma upsert_companies_Ok (employers : list employer_payload) (s s' : db) :
  upsert_companies employers s = Ok s' ->
  vacancies s' = vacancies s
  /\ ((employers = [] /\ s' = s)
      \/ (employers <> []
          /\ Upsert.execute_values cr_hh_id c_hh_id company_constraints
               company_inserted company_updated
               (companies s, companies_id_seq s) (company_row_of <$> employers)
             = Ok (companies s', companies_id_seq s'))).
Proof.
  unfold upsert_companies. case_bool_decide as Hrows.
  - intros [= ->]. apply fmap_nil_inv in Hrows. auto.
  - destruct (Upsert.execute_values _ _ _ _ _ _ _) as [[cs q]|]; simpl; [|done].
    intros [= <-]. simpl. split; [done|]. right. split; [|done]. by intros ->.
Qed.

Lemma upsert_companies_twice (employers : list employer_payload) (s s1 s2 : db) :
  upsert_companies employers s = Ok s1 ->
  upsert_companies employers s1 = Ok s2 ->
  companies s2 = companies s1 /\ vacancies s2 = vacancies s1.
Proof.
  intros H1 H2.
  apply upsert_companies_Ok in H2 as [Hv2 [[_ ->]|[Hne H2]]]; [done|]. split; [|done].
  apply upsert_companies_Ok in H1 as [_ [[-> _]|[_ H1]]]; [done|].
  eapply (UpsertFacts.execute_values_idem cr_hh_id c_hh_id company_constraints
            company_inserted company_updated) in H2; [exact H2|done..|exact H1].
Qed.

Lemma company_mapping_Some (s : db) (k cid : Z) :
  company_mapping s !! k = Some cid ->
  exists c, c ∈ companies s /\ c_hh_id c = k /\ c_id c = cid.
Proof.
  unfold company_mapping.
  assert (H : forall (l : list company) (m : gmap Z Z),
             foldl (fun m c => <[c_hh_id c := c_id c]> m) m l !! k = Some cid ->
             m !! k = Some cid \/ exists c, c ∈ l /\ c_hh_id c = k /\ c_id c = cid).
  { induction l as [|c l IH]; intros m; simpl; [auto|].
    intros [Hm|(c' & Hc' & Hk)]%IH.
    - destruct (decide (c_hh_id c = k)) as [E|E].
      + rewrite E, lookup_insert_eq in Hm. injection Hm as <-.
        right. exists c. split; [by left|done].
      + rewrite lookup_insert_ne in Hm by done. auto.
    - right. exists c'. split; [by right|done]. }
  intros [Hm|Hc]%H; [by rewrite lookup_empty in Hm|done].
Qed.

Section LoaderFacts.
Variable fromisoformat : string -> result datetime.

(** A posting that does not resolve leaves no trace in [rows]. *)
Lemma vacancy_rows_orphan (s : db) (pre post : list vacancy_payload) (vac : vacancy_payload) :
  resolves s vac = false ->
  vacancy_rows fromisoformat (company_mapping s) (pre ++ vac :: post)
  = vacancy_rows fromisoformat (company_mapping s) (pre ++ post).
Proof.
  intros Hvac. induction pre as [|v pre IH]; simpl.
  - unfold resolves in Hvac. destruct (vac_employer vac) as [e|]; simpl; [|done].
    destruct (ref_id e) as [k|]; [|done].
    destruct (company_mapping s !! k) eqn:E; [|done].
    by rewrite bool_decide_eq_true_2 in Hvac.
  - by rewrite IH.
Qed.

Lemma vacancy_rows_orphans (s : db) (vacs : list vacancy_payload) :
  Forall (fun vac => resolves s vac = false) vacs ->
  vacancy_rows fromisoformat (company_mapping s) vacs = Ok [].
Proof.
  induction 1 as [|vac vacs Hvac _ IH]; [done|].
  etrans; [apply (vacancy_rows_orphan s [] vacs vac Hvac)|done].
Qed.

(** Every row of [rows] points to a stored company. *)
Lemma vacancy_rows_company (s : db) (vacs : list vacancy_payload) (rows : list vacancy_row) :
  vacancy_rows fromisoformat (company_mapping s) vacs = Ok rows ->
  Forall (fun r => exists c, c ∈ companies s /\ c_id c = vr_company_id r) rows.
Proof.
  revert rows. induction vacs as [|vac vacs IH]; intros rows; simpl.
  - intros [= <-]. constructor.
  - destruct (ref_id (default {| ref_id := None |} (vac_employer vac))) as [k|]; [|apply IH].
    destruct (company_mapping s !! k) as [cid|] eqn:Hk; [|apply IH].
    destruct (_parse_salary (vac_salary vac)) as [[sf st] cur].
    destruct (_parse_published_at fromisoformat (vac_published_at vac)) as [p|]; simpl; [|done].
    destruct (vacancy_rows fromisoformat (company_mapping s) vacs) as [rows'|]; simpl; [|done].
    intros [= <-]. constructor; [|by apply IH]. simpl.
    apply company_mapping_Some in Hk as (c & Hc & _ & Hid). eauto.
Qed.

Lemma insert_vacancies_Ok (vacs : list vacancy_payload) (s s' : db) :
  insert_vacancies fromisoformat vacs s = Ok s' ->
  companies s' = companies s
  /\ exists rows,
       vacancy_rows fromisoformat (company_mapping s) vacs = Ok rows
       /\ ((rows = [] /\ s' = s)
           \/ (rows <> []
               /\ Upsert.execute_values vr_hh_id v_hh_id vacancy_constraints
                    vacancy_inserted vacancy_updated
                    (vacancies s, vacancies_id_seq s) rows
                  = Ok (vacancies s', vacancies_id_seq s'))).
Proof.
  unfold insert_vacancies.
  destruct (vacancy_rows fromisoformat (company_mapping s) vacs) as [rows|]; simpl; [|done].
  case_bool_decide as Hrows.
  - intros [= ->]. split; [done|]. exists rows. split; [done|]. by left.
  - destruct (Upsert.execute_values _ _ _ _ _ _ _) as [[vs q]|] eqn:E; simpl; [|done].
    intros [= <-]. simpl. split; [done|]. exists rows. split; [done|]. by right.
Qed.

Lemma insert_vacancies_twice (vacs : list vacancy_payload) (s s1 s2 : db) :
  insert_vacancies fromisoformat vacs s = Ok s1 ->
  insert_vacancies fromisoformat vacs s1 = Ok s2 ->
  companies s2 = companies s1 /\ vacancies s2 = vacancies s1.
Proof.
  intros H1 H2.
  apply insert_vacancies_Ok in H1 as (Hc1 & rows & Hrows & H1).
  apply insert_vacancies_Ok in H2 as (Hc2 & rows2 & Hrows2 & H2).
  split; [done|].
  assert (rows2 = rows) as ->.
  { unfold company_mapping in *. rewrite Hc1 in Hrows2. congruence. }
  destruct H2 as [[_ ->]|[Hne H2]]; [done|].
  destruct H1 as [[-> _]|[_ H1]]; [done|].
  eapply (UpsertFacts.execute_values_idem vr_hh_id v_hh_id vacancy_constraints
            vacancy_inserted vacancy_updated) in H2; [exact H2|done..|exact H1].
Qed.
End LoaderFacts.

(** A batch that renames a stored company and adds a new one: the second
    application changes no row, and uses up two more sequence values. *)
Lemma upsert_companies_example :
  let s1 := after acme_db (upsert_companies [acme_renamed; zeta_employer] acme_db) in
  let s2 := after s1 (upsert_companies [acme_renamed; zeta_employer] s1) in
  (c_name <$> companies s1) = ["Acme Corp"%string; "Zeta"%string]
  /\ companies s2 = companies s1
  /\ companies_id_seq s1 = 4 /\ companies_id_seq s2 = 6.
Proof. repeat split; reflexivity. Qed.

(** C7: for every state of the tables and every batch, the tables after
    two applications of [upsert_companies] (of [insert_vacancies]) to the
    same batch are the tables after one application: the same rows with
    the same values in every column. A call that raises is rolled back
    and counts as leaving the tables unchanged. *)
Theorem upserts_idempotent (fromisoformat : string -> result datetime) (s : db)
    (employers : list employer_payload) (vacs : list vacancy_payload) :
  (let s1 := after s (upsert_companies employers s) in
   let s2 := after s1 (upsert_companies employers s1) in
   companies s2 = companies s1 /\ vacancies s2 = vacancies s1)
  /\ (let s1 := after s (insert_vacancies fromisoformat vacs s) in
      let s2 := after s1 (insert_vacancies fromisoformat vacs s1) in
      companies s2 = companies s1 /\ vacancies s2 = vacancies s1).
Proof.
  split; simpl.
  - destruct (upsert_companies employers s) as [s1|e] eqn:H1; simpl.
    + destruct (upsert_companies employers s1) as [s2|e] eqn:H2; simpl; [|done].
      by eapply upsert_companies_twice.
    + by rewrite H1.
  - destruct (insert_vacancies fromisoformat vacs s) as [s1|e] eqn:H1; simpl.
    + destruct (insert_vacancies fromisoformat vacs s1) as [s2|e] eqn:H2; simpl; [|done].
      by eapply insert_vacancies_twice.
    + by rewrite H1.
Qed.

(** C4: a posting whose employer is not bound to a stored company is
    skipped: the call behaves on the batch as it does on the batch without
    that posting (same tables, same sequences, same outcome), a batch of
    such postings returns normally and leaves the database as it was, and
    every row of [vacancies] after a call is a row that was there before
    or points to a stored company. *)
Theorem insert_vacancies_orphan (fromisoformat : string -> result datetime) (s : db)
    (pre post : list vacancy_payload) (vac : vacancy_payload) :
  resolves s vac = false ->
  insert_vacancies fromisoformat (pre ++ vac :: post) s
  = insert_vacancies fromisoformat (pre ++ post) s
  /\ (forall vacs, Forall (fun vac => resolves s vac = false) vacs ->
                   insert_vacancies fromisoformat vacs s = Ok s)
  /\ (forall s', insert_vacancies fromisoformat (pre ++ vac :: post) s = Ok s' ->
                 companies s' = companies s
                 /\ forall v, v ∈ vacancies s' ->
                      v ∈ vacancies s
                      \/ exists c, c ∈ companies s' /\ c_id c = v_company_id v).
Proof.
  intros Hvac. split; [|split].
  - unfold insert_vacancies. by rewrite vacancy_rows_orphan.
  - intros vacs Hvacs. unfold insert_vacancies.
    by rewrite vacancy_rows_orphans.
  - intros s' H. apply insert_vacancies_Ok in H as (Hc & rows & Hrows & H).
    split; [done|]. rewrite Hc.
    destruct H as [[_ ->]|[_ H]]; [auto|].
    apply vacancy_rows_company in Hrows. rewrite Forall_forall in Hrows.
    apply Forall_forall.
    change (vacancies s') with ((vacancies s', vacancies_id_seq s').1).
    eapply (UpsertFacts.execute_values_Forall vr_hh_id v_hh_id vacancy_constraints
              vacancy_inserted vacancy_updated); [| |exact H|].
    + intros i r Hr. right. simpl. by apply Hrows.
    + intros r c Hr. right. simpl. by apply Hrows.
    + simpl. apply Forall_forall. auto.
Qed.

Lemma insert_vacancies_orphan_witness :
  resolves acme_db orphan_posting = false
  /\ insert_vacancies sample_fromisoformat ([acme_posting] ++ orphan_posting :: []) acme_db
     = insert_vacancies sample_fromisoformat ([acme_posting] ++ []) acme_db.
Proof.
  split; [reflexivity|].
  apply (insert_vacancies_orphan sample_fromisoformat acme_db
           [acme_posting] [] orphan_posting).
  reflexivity.
Defined.

(** ** [_parse_published_at] *)

Lemma string_app_cons (c : ascii) (s t : string) :
  (String c s ++ t)%string = String c (s ++ t).
Proof. reflexivity. Qed.

Lemma string_app_empty_r (s : string) : (s ++ EmptyString)%string = s.
Proof.
  induction s as [|c s IH]; [done|]. by rewrite string_app_cons, IH.
Qed.

Lemma replace_suffix (old : ascii) (new base : string) :
  occurs old base = false ->
  replace old new (base ++ String old EmptyString) = (base ++ new)%string.
Proof.
  induction base as [|c base IH].
  - intros _. change (replace old new (String old EmptyString) = new).
    simpl. rewrite Ascii.eqb_refl. apply string_app_empty_r.
  - rewrite !string_app_cons. simpl.
    destruct (Ascii.eqb c old); simpl; [done|]. intros H. by rewrite IH.
Qed.

Lemma string_app_not_empty (base : string) (c : ascii) :
  (base ++ String c EmptyString)%string <> EmptyString.
Proof. by destruct base. Qed.

(** C5: [_parse_published_at] returns normally on every input, as
    [fromisoformat] raises nothing but [ValueError] on a string. No value
    gives [None]; a string that ends in its only [Z] and that parses once
    that [Z] is read as [+00:00] gives that timestamp; a string that
    [fromisoformat] rejects gives [None]. *)
Theorem parse_published_at_spec (fromisoformat : string -> result datetime) :
  (forall v e, fromisoformat v = Raise e -> e = ValueError) ->
  (forall value, exists r, _parse_published_at fromisoformat value = Ok r)
  /\ _parse_published_at fromisoformat None = Ok None
  /\ (forall base t,
        occurs "Z" base = false ->
        fromisoformat (base ++ "+00:00")%string = Ok t ->
        _parse_published_at fromisoformat (Some (base ++ "Z")%string) = Ok (Some t))
  /\ (forall v,
        fromisoformat (replace "Z" "+00:00" v) = Raise ValueError ->
        _parse_published_at fromisoformat (Some v) = Ok None).
Proof.
  intros Hraise. repeat split.
  - intros [v|]; simpl; [|by eexists].
    case_bool_decide; [by eexists|].
    destruct (fromisoformat _) as [t|e] eqn:E; [by eexists|].
    rewrite (Hraise _ _ E). by eexists.
  - intros base t Hbase Ht. simpl.
    rewrite bool_decide_eq_false_2 by apply string_app_not_empty.
    by rewrite replace_suffix, Ht.
  - intros v Hv. simpl. case_bool_decide; [done|]. by rewrite Hv.
Qed.

Lemma parse_published_at_spec_witness :
  (forall v e, sample_fromisoformat v = Raise e -> e = ValueError)
  /\ _parse_published_at sample_fromisoformat (Some "2024-01-15T10:30:00Z"%string)
     = Ok (Some {| dt_year := 2024; dt_month := 1; dt_day := 15;
                   dt_hour := 10; dt_minute := 30; dt_second := 0;
                   dt_utcoffset := Some 0 |})
  /\ _parse_published_at sample_fromisoformat (Some "yesterday"%string) = Ok None.
Proof.
  assert (H : forall v e, sample_fromisoformat v = Raise e -> e = ValueError).
  { intros v e. unfold sample_fromisoformat. case_bool_decide; congruence. }
  split; [exact H|].
  destruct (parse_published_at_spec sample_fromisoformat H) as (_ & _ & Hz & Hbad).
  split.
  - apply (Hz "2024-01-15T10:30:00"%string); reflexivity.
  - apply Hbad. reflexivity.
Defined.

(** ** [HeadHunterAPI] *)

(** C10: when the request succeeds and the body has its employers under
    ["items"] and has no key ["itmems"], [search_employers] returns the
    empty list, whatever the employers are. *)
Theorem search_employers_itmems
    (employers_search_endpoint : string -> Z -> result (gmap string json))
    (text : string) (per_page : Z) (w : world) (data : gmap string json) (items : json) :
  employers_search_endpoint text per_page = Ok data ->
  data !! "items"%string = Some items ->
  data !! "itmems"%string = None ->
  search_employers employers_search_endpoint text per_page w
  = (sent w [SearchEmployers text per_page], Ok (JArr [])).
Proof.
  intros Hdata _ Hkey. unfold search_employers, send, mbind, io_bind. simpl.
  by rewrite Hdata, Hkey.
Qed.

Lemma search_employers_itmems_witness :
  yandex_search_body !! "items"%string = Some yandex_employers
  /\ yandex_search_body !! "itmems"%string = None
  /\ search_employers (fun _ _ => Ok yandex_search_body) "yandex" 20 acme_world
     = (sent acme_world [SearchEmployers "yandex" 20], Ok (JArr [])).
Proof.
  assert (H1 : yandex_search_body !! "items"%string = Some yandex_employers)
    by (by vm_compute).
  assert (H2 : yandex_search_body !! "itmems"%string = None) by (by vm_compute).
  split; [exact H1|]. split; [exact H2|].
  apply (search_employers_itmems (fun _ _ => Ok yandex_search_body) "yandex" 20
           acme_world yandex_search_body yandex_employers eq_refl H1 H2).
Defined.

Lemma sent_nil (w : world) : sent w [] = w.
Proof. unfold sent. rewrite app_nil_r. by destruct w. Qed.

Lemma sent_sent (w : world) (a b : list request) : sent (sent w a) b = sent w (a ++ b).
Proof. unfold sent. simpl. by rewrite app_assoc. Qed.

Lemma io_bind_run {A B : Type} (m : io A) (f : A -> io B) (w : world) :
  (m ≫= f) w
  = match m w with
    | (w', Ok a) => f a w'
    | (w', Raise e) => (w', Raise e)
    end.
Proof. reflexivity. Qed.

Lemma mapM_io_cons {A B : Type} (f : A -> io B) (x : A) (l : list A) (w : world) :
  mapM f (x :: l) w
  = match f x w with
    | (w', Ok y) =>
        match mapM f l w' with
        | (w'', Ok k) => (w'', Ok (y :: k))
        | (w'', Raise e) => (w'', Raise e)
        end
    | (w', Raise e) => (w', Raise e)
    end.
Proof. reflexivity. Qed.

(** The employer requests of a run, in the order of the seeds. *)
Lemma get_employers_outcome (employers_endpoint : Z -> result employer_payload)
    (seeds : list EmployerSeed) (w : world) :
  (exists payloads,
     Forall2 (fun seed p => employers_endpoint (hh_id seed) = Ok p) seeds payloads
     /\ mapM (fun seed => get_employer employers_endpoint (hh_id seed)) seeds w
        = (sent w ((fun seed => GetEmployer (hh_id seed)) <$> seeds), Ok payloads))
  \/ (exists pre seed post e,
        seeds = pre ++ seed :: post
        /\ Forall (fun seed => exists p, employers_endpoint (hh_id seed) = Ok p) pre
        /\ employers_endpoint (hh_id seed) = Raise e
        /\ mapM (fun seed => get_employer employers_endpoint (hh_id seed)) seeds w
           = (sent w ((fun seed => GetEmployer (hh_id seed)) <$> pre ++ [seed]), Raise e)).
Proof.
  revert w. induction seeds as [|seed seeds IH]; intros w.
  - left. exists []. split; [constructor|]. simpl. by rewrite sent_nil.
  - rewrite !mapM_io_cons. unfold get_employer at 1 3, send.
    destruct (employers_endpoint (hh_id seed)) as [p|e] eqn:Hseed.
    + destruct (IH (sent w [GetEmployer (hh_id seed)]))
        as [(ps & Hps & Hrun)|(pre & bad & post & e & Hseeds & Hpre & Hbad & Hrun)];
        rewrite !Hrun, !sent_sent.
      * left. exists (p :: ps). split; [by constructor|reflexivity].
      * right. exists (seed :: pre), bad, post, e.
        split; [by rewrite Hseeds|]. split; [constructor; eauto|]. split; [done|reflexivity].
    + right. exists [], seed, seeds, e. repeat split; [constructor|done].
Qed.

(** C9: when the request for one of the seed employers raises, the run
    raises that error after the employer requests up to and including the
    failing one; it sends no other request, and the database is the one
    the run started with. *)
Theorem load_hh_data_to_db_fail_fast
    (employers_endpoint : Z -> result employer_payload)
    (vacancies_endpoint : vacancies_params -> result vacancies_body)
    (fromisoformat : string -> result datetime)
    (seeds : list EmployerSeed) (only_with_salary : bool) (max_pages : Z) (w : world) :
  Exists (fun seed => exists e, employers_endpoint (hh_id seed) = Raise e) seeds ->
  exists pre seed post e,
    seeds = pre ++ seed :: post
    /\ Forall (fun seed => exists p, employers_endpoint (hh_id seed) = Ok p) pre
    /\ employers_endpoint (hh_id seed) = Raise e
    /\ load_hh_data_to_db employers_endpoint vacancies_endpoint fromisoformat
         seeds only_with_salary max_pages w
       = (sent w ((fun seed => GetEmployer (hh_id seed)) <$> pre ++ [seed]), Raise e)
    /\ w_db (load_hh_data_to_db employers_endpoint vacancies_endpoint fromisoformat
               seeds only_with_salary max_pages w).1 = w_db w.
Proof.
  intros Hbad.
  destruct (get_employers_outcome employers_endpoint seeds w)
    as [(ps & Hps & _)|(pre & bad & post & e & Hseeds & Hpre & Hraise & Hrun)].
  - exfalso. apply Exists_exists in Hbad as (seed & Hseed & e & He).
    apply list_elem_of_lookup in Hseed as [i Hi].
    destruct (Forall2_lookup_l _ _ _ _ _ Hps Hi) as (p & _ & Hp). congruence.
  - exists pre, bad, post, e. split; [done|]. split; [done|]. split; [done|].
    assert (H : load_hh_data_to_db employers_endpoint vacancies_endpoint fromisoformat
                  seeds only_with_salary max_pages w
                = (sent w ((fun seed => GetEmployer (hh_id seed)) <$> pre ++ [bad]), Raise e)).
    { unfold load_hh_data_to_db. by rewrite io_bind_run, Hrun. }
    by rewrite H.
Qed.

Lemma load_hh_data_to_db_fail_fast_witness :
  Exists (fun seed => exists e, sample_employers_endpoint (hh_id seed) = Raise e) sample_seeds
  /\ exists pre seed post e,
       sample_seeds = pre ++ seed :: post
       /\ Forall (fun seed => exists p, sample_employers_endpoint (hh_id seed) = Ok p) pre
       /\ sample_employers_endpoint (hh_id seed) = Raise e
       /\ load_hh_data_to_db sample_employers_endpoint sample_vacancies_endpoint
            sample_fromisoformat sample_seeds false 20 acme_world
          = (sent acme_world ((fun seed => GetEmployer (hh_id seed)) <$> pre ++ [seed]), Raise e)
       /\ w_db (load_hh_data_to_db sample_employers_endpoint sample_vacancies_endpoint
                  sample_fromisoformat sample_seeds false 20 acme_world).1 = w_db acme_world.
Proof.
  assert (H : Exists (fun seed => exists e, sample_employers_endpoint (hh_id seed) = Raise e)
                sample_seeds).
  { apply Exists_cons_tl, Exists_cons_hd. exists HTTPError. reflexivity. }
  split; [exact H|].
  exact (load_hh_data_to_db_fail_fast sample_employers_endpoint sample_vacancies_endpoint
           sample_fromisoformat sample_seeds false 20 acme_world H).
Defined.

(** One turn of the page loop. *)
Lemma pages_loop_cons (vacancies_endpoint : vacancies_params -> result vacancies_body)
    (employer_id per_page : Z) (area : option Z) (only_with_salary : bool)
    (page : Z) (pages_left : list Z) (all_items : list vacancy_payload) (w : world) :
  pages_loop vacancies_endpoint employer_id per_page area only_with_salary
    (page :: pages_left) all_items w
  = let params := page_params employer_id per_page area only_with_salary page in
    match vacancies_endpoint params with
    | Ok data =>
        if bool_decide (page + 1 >= pages_of data)
        then (sent w [GetVacancies params], Ok (all_items ++ items_of data))
        else pages_loop vacancies_endpoint employer_id per_page area only_with_salary
               pages_left (all_items ++ items_of data) (sent w [GetVacancies params])
    | Raise e => (sent w [GetVacancies params], Raise e)
    end.
Proof.
  simpl. rewrite io_bind_run. unfold send.
  destruct (vacancies_endpoint _) as [data|e]; [|done].
  by case_bool_decide.
Qed.


Lemma range_succ (m : nat) : range (Z.of_nat m + 1) = Z.of_nat <$> seq 0 (S m).
Proof. unfold range. by replace (Z.to_nat (Z.of_nat m + 1)) with (S m) by lia. Qed.



(** On the sample upstream, which reports three pages, the pages 0, 1 and
    2 are requested. *)
Lemma get_vacancies_by_employer_sample :
  get_vacancies_by_employer sample_vacancies_endpoint 42 100 20 None false acme_world
  = (sent acme_world ((fun page => GetVacancies (page_params 42 100 None false page))
                      <$> [0; 1; 2]),
     Ok [acme_posting]).
Proof. reflexivity. Qed.

(** With [max_pages = 2] the cap stops the loop after the pages 0 and 1. *)
Lemma get_vacancies_by_employer_capped :
  get_vacancies_by_employer sample_vacancies_endpoint 42 100 2 None false acme_world
  = (sent acme_world ((fun page => GetVacancies (page_params 42 100 None false page))
                      <$> [0; 1]),
     Ok [acme_posting]).
Proof. reflexivity. Qed.

(** ** [ILIKE] on a keyword without wildcards *)

Lemma like_percent (p t : list ascii) :
  like ("%"%char :: p) t
  = b ← like p t;
    if b : bool then Ok true
    else match t with
         | [] => Ok false
         | _ :: t' => like ("%"%char :: p) t'
         end.
Proof. by destruct t. Qed.

Lemma like_literal (c : ascii) (p t : list ascii) :
  like_special c = false ->
  like (c :: p) t
  = match t with
    | [] => Ok false
    | d :: t' => if Ascii.eqb c d then like p t' else Ok false
    end.
Proof.
  unfold like_special. intros H.
  apply orb_false_elim in H as [H H3]. apply orb_false_elim in H as [H1 H2].
  destruct t; simpl; by rewrite H1, H2, H3.
Qed.

Lemma like_percent_all (t : list ascii) : like ["%"%char] t = Ok true.
Proof.
  induction t as [|d t IH]; [done|].
  by rewrite like_percent, IH.
Qed.

Lemma like_percent_suffix (p : list ascii) (f : list ascii -> bool) :
  (forall t, like p t = Ok (f t)) ->
  forall t, like ("%"%char :: p) t = Ok (some_suffix f t).
Proof.
  intros Hp. induction t as [|d t IH]; rewrite like_percent, Hp.
  - simpl. by destruct (f []).
  - rewrite IH. simpl. by destruct (f (d :: t)).
Qed.

Lemma like_plain_prefix (k t : list ascii) :
  forallb (fun c => negb (like_special c)) k = true ->
  like (k ++ ["%"%char]) t = Ok (is_prefix k t).
Proof.
  revert t. induction k as [|c k IH]; intros t Hk.
  - apply like_percent_all.
  - simpl in Hk. apply andb_prop in Hk as [Hc Hk]. apply negb_true_iff in Hc.
    change ((c :: k) ++ ["%"%char]) with (c :: (k ++ ["%"%char])).
    rewrite like_literal by done.
    destruct t as [|d t]; simpl; [done|].
    destruct (Ascii.eqb c d); [by apply IH|done].
Qed.

Lemma some_suffix_is_prefix (k t : list ascii) :
  some_suffix (is_prefix k) t = is_substring k t.
Proof. induction t as [|d t IH]; simpl; [done|]. by rewrite IH. Qed.

Lemma like_special_lower (c : ascii) : like_special (lower_char c) = like_special c.
Proof. by destruct c as [[] [] [] [] [] [] [] []]. Qed.

Lemma list_ascii_of_string_app (a b : string) :
  list_ascii_of_string (a ++ b) = list_ascii_of_string a ++ list_ascii_of_string b.
Proof.
  induction a as [|c a IH]; [done|].
  rewrite string_app_cons. simpl. by rewrite IH.
Qed.

(** On a keyword without [%], [_] and backslash, [ILIKE '%keyword%'] is
    the occurrence of the keyword in the text, without regard to case. *)
Lemma ilike_plain (text keyword : string) :
  plain_keyword keyword = true ->
  ilike text ("%" ++ keyword ++ "%") = Ok (contains_keyword text keyword).
Proof.
  intros Hk. unfold ilike, contains_keyword, lower.
  change ("%" ++ keyword ++ "%")%string with (String "%" (keyword ++ "%"))%string.
  simpl list_ascii_of_string. rewrite list_ascii_of_string_app, map_cons, map_app.
  change (lower_char "%") with "%"%char.
  change (map lower_char (list_ascii_of_string "%")) with ["%"%char].
  rewrite (like_percent_suffix _ (is_prefix (map lower_char (list_ascii_of_string keyword)))).
  - by rewrite some_suffix_is_prefix.
  - intros t. apply like_plain_prefix.
    unfold plain_keyword in Hk. rewrite forallb_forall in Hk |- *.
    intros c Hc. apply in_map_iff in Hc as (c0 & <- & Hc0).
    rewrite like_special_lower. by apply Hk.
Qed.

(** The pattern is refused when the keyword holds a NUL character. *)
Lemma adapt_text_pattern (keyword : string) :
  adapt_text ("%" ++ keyword ++ "%")
  = if existsb (Ascii.eqb zero) (list_ascii_of_string keyword)
    then Raise ValueError else Ok ("%" ++ keyword ++ "%")%string.
Proof.
  unfold adapt_text.
  change ("%" ++ keyword ++ "%")%string with (String "%" (keyword ++ "%"))%string.
  simpl list_ascii_of_string. rewrite list_ascii_of_string_app. simpl existsb.
  rewrite existsb_app. simpl. by rewrite !orb_false_r.
Qed.

Lemma ascii_text_no_nul (s : string) :
  ascii_text s = true -> existsb (Ascii.eqb zero) (list_ascii_of_string s) = false.
Proof.
  unfold ascii_text. induction (list_ascii_of_string s) as [|c l IH]; simpl; [done|].
  intros [Hc Hl]%andb_prop. rewrite (IH Hl), orb_false_r.
  destruct (Ascii.eqb zero c) eqn:E; [|done].
  apply Ascii.eqb_eq in E as <-. done.
Qed.

Lemma filter_sublist {A : Type} (p : A -> bool) (l : list A) : sublist (List.filter p l) l.
Proof.
  induction l as [|x l IH]; simpl; [constructor|].
  destruct (p x); [by apply sublist_skip|by apply sublist_cons].
Qed.

Lemma filter_filter_andb {A : Type} (p q : A -> bool) (l : list A) :
  List.filter p (List.filter q l) = List.filter (fun x => p x && q x) l.
Proof.
  induction l as [|x l IH]; simpl; [done|].
  destruct (q x); simpl; [|by rewrite andb_false_r].
  rewrite andb_true_r. destruct (p x); by rewrite IH.
Qed.

(** On a keyword without NUL, [%], [_] and backslash the model of the
    query is the filter of [get_all_vacancies] by [contains_keyword]. *)
Lemma get_vacancies_with_keyword_filter (s : db) (keyword : string) :
  existsb (Ascii.eqb zero) (list_ascii_of_string keyword) = false ->
  plain_keyword keyword = true ->
  get_vacancies_with_keyword s keyword
  = Ok (List.filter (fun r => contains_keyword (vacancy_title r) keyword)
          (get_all_vacancies s)).
Proof.
  intros Hnul Hk. unfold get_vacancies_with_keyword.
  rewrite adapt_text_pattern, Hnul. simpl.
  rewrite (filter_rows_pure _ (fun r => contains_keyword (v_title r.2) keyword))
    by (intros r _; by apply ilike_plain).
  simpl. unfold get_all_vacancies.
  rewrite filter_fmap_swap, filter_order_by;
    [done | apply name_title_leb_total | apply name_title_leb_trans].
Qed.

(** X6: on ASCII text the keyword search does what its docstring says.
    For a keyword of ASCII characters other than NUL, [%], [_] and
    backslash, the search returns normally; it returns rows of
    [get_all_vacancies] in their order, and among the postings with an
    ASCII title it returns exactly those whose title contains the keyword
    in any case. *)
Theorem get_vacancies_with_keyword_plain (s : db) (keyword : string) :
  ascii_text keyword = true -> plain_keyword keyword = true ->
  exists rows,
    get_vacancies_with_keyword s keyword = Ok rows
    /\ sublist rows (get_all_vacancies s)
    /\ List.filter (fun r => ascii_text (vacancy_title r)) rows
       = List.filter (fun r => ascii_text (vacancy_title r)
                               && contains_keyword (vacancy_title r) keyword)
           (get_all_vacancies s).
Proof.
  intros Ha Hk. eexists. split; [|split].
  - apply get_vacancies_with_keyword_filter; [by apply ascii_text_no_nul|done].
  - apply filter_sublist.
  - apply filter_filter_andb.
Qed.

(** ** [get_companies_and_vacancies_count] on companies with distinct names *)

Lemma left_join_rows_company (s : db) (c : company) (r : company * option vacancy) :
  r ∈ left_join_rows s c -> r.1 = c.
Proof.
  unfold left_join_rows. destruct (filter _ (vacancies s)) as [|v vs].
  - by intros ->%list_elem_of_singleton.
  - by intros (v' & -> & _)%list_elem_of_fmap.
Qed.

Lemma left_join_rows_not_nil (s : db) (c : company) : left_join_rows s c <> [].
Proof. unfold left_join_rows. by destruct (filter _ (vacancies s)). Qed.

Lemma left_join_rows_count (s : db) (c : company) :
  count_v_id (left_join_rows s c) = vacancies_of s c.
Proof.
  unfold left_join_rows, count_v_id, vacancies_of.
  destruct (filter _ (vacancies s)) as [|v vs]; [done|].
  f_equal. generalize (v :: vs). intros l.
  induction l as [|x l IH]; [done|].
  rewrite fmap_cons, filter_cons_True by (simpl; eauto). simpl. by rewrite IH.
Qed.

Lemma left_join_names (s : db) (cs : list company) (n : string) :
  n ∈ (fun r : company * option vacancy => c_name r.1) <$> (cs ≫= left_join_rows s) ->
  n ∈ c_name <$> cs.
Proof.
  intros (r & -> & Hr)%list_elem_of_fmap.
  apply list_elem_of_bind in Hr as (c & Hr & Hc).
  apply left_join_rows_company in Hr as ->. apply list_elem_of_fmap. eauto.
Qed.

Lemma remove_dups_block (x : string) (block l : list string) :
  block <> [] -> Forall (fun y => y = x) block -> x ∉ l ->
  remove_dups (block ++ l) = x :: remove_dups l.
Proof.
  intros Hne Hall Hx. induction Hall as [|y block -> Hall IH]; [done|]. simpl.
  destruct block as [|z block].
  - simpl. destruct (decide_rel elem_of x l) as [H|H]; [by destruct Hx|done].
  - destruct (decide_rel elem_of x ((z :: block) ++ l)) as [_|H]; [by apply IH|].
    destruct H. apply elem_of_app. left. inversion Hall; subst. by left.
Qed.

Lemma group_by_name_distinct (s : db) (cs : list company) :
  NoDup (c_name <$> cs) ->
  group_by_name (cs ≫= left_join_rows s) = c_name <$> cs.
Proof.
  unfold group_by_name. induction cs as [|c cs IH]; [done|].
  rewrite fmap_cons, NoDup_cons. intros [Hc Hcs].
  rewrite bind_cons, fmap_app, (remove_dups_block (c_name c)).
  - by rewrite IH.
  - intros H%fmap_nil_inv. by apply left_join_rows_not_nil in H.
  - apply Forall_fmap, Forall_forall. intros r Hr. simpl.
    by rewrite (left_join_rows_company _ _ _ Hr).
  - intros H. by apply Hc, (left_join_names s).
Qed.

Lemma group_rows_distinct (s : db) (cs : list company) (c : company) :
  NoDup (c_name <$> cs) -> c ∈ cs ->
  filter (fun r : company * option vacancy => c_name r.1 = c_name c) (cs ≫= left_join_rows s)
  = left_join_rows s c.
Proof.
  assert (Hall : forall c0 : company,
            c_name c0 = c_name c ->
            filter (fun r : company * option vacancy => c_name r.1 = c_name c)
              (left_join_rows s c0) = left_join_rows s c0).
  { intros c0 E. assert (H := left_join_rows_company s c0).
    induction (left_join_rows s c0) as [|r l IH]; [done|].
    rewrite filter_cons_True by (rewrite (H r); [done|by left]).
    rewrite IH; [done|]. intros r' Hr'. apply H. by right. }
  assert (Hnone : forall c0 : company,
            c_name c0 <> c_name c ->
            filter (fun r : company * option vacancy => c_name r.1 = c_name c)
              (left_join_rows s c0) = []).
  { intros c0 E. assert (H := left_join_rows_company s c0).
    induction (left_join_rows s c0) as [|r l IH]; [done|].
    rewrite filter_cons_False by (rewrite (H r); [done|by left]).
    apply IH. intros r' Hr'. apply H. by right. }
  induction cs as [|c0 cs IH]; [by intros _ ?%elem_of_nil|].
  rewrite fmap_cons, NoDup_cons. intros [Hc0 Hcs] Hc.
  rewrite bind_cons, filter_app.
  destruct (decide (c_name c0 = c_name c)) as [E|E].
  - assert (c0 = c) as ->.
    { apply elem_of_cons in Hc as [->|Hc]; [done|].
      destruct Hc0. rewrite E. apply list_elem_of_fmap. eauto. }
    rewrite Hall by done.
    assert (Hrest : filter (fun r : company * option vacancy => c_name r.1 = c_name c)
                      (cs ≫= left_join_rows s) = []).
    { clear IH Hc. induction cs as [|c1 cs IH]; [done|].
      apply NoDup_cons in Hcs as [_ Hcs].
      rewrite bind_cons, filter_app, Hnone, IH; [done| |done|].
      - intros H. apply Hc0. by right.
      - intros E1. apply Hc0. rewrite <- E1. by left. }
    by rewrite Hrest, app_nil_r.
  - rewrite Hnone by done. apply IH; [done|].
    apply elem_of_cons in Hc as [->|Hc]; [done|done].
Qed.

(** When the stored companies have distinct names, the query returns one
    row per company, with the number of its postings (0 when it has
    none), sorted by [ORDER BY count DESC, name]. *)
Lemma get_companies_and_vacancies_count_distinct (s : db) :
  NoDup (c_name <$> companies s) ->
  get_companies_and_vacancies_count s
  = order_by count_desc_name_leb ((fun c => (c_name c, vacancies_of s c)) <$> companies s).
Proof.
  intros Hnames. unfold get_companies_and_vacancies_count, companies_left_join_vacancies.
  cbv zeta. rewrite group_by_name_distinct by done. f_equal.
  rewrite <- list_fmap_compose. apply list_fmap_ext. intros i c Hc. simpl.
  apply list_elem_of_lookup_2 in Hc.
  by rewrite group_rows_distinct, left_join_rows_count.
Qed.

Lemma count_desc_name_leb_total (a b : string * Z) :
  count_desc_name_leb a b = true \/ count_desc_name_leb b a = true.
Proof.
  unfold count_desc_name_leb.
  destruct (Z.ltb_spec b.2 a.2); [by left|].
  destruct (Z.ltb_spec a.2 b.2); [by right|].
  rewrite !(proj2 (Z.eqb_eq _ _)) by lia. apply String.leb_total.
Qed.

Lemma count_desc_name_leb_trans (a b c : string * Z) :
  count_desc_name_leb a b = true -> count_desc_name_leb b c = true ->
  count_desc_name_leb a c = true.
Proof.
  unfold count_desc_name_leb.
  destruct (Z.ltb_spec b.2 a.2), (Z.ltb_spec c.2 b.2), (Z.ltb_spec c.2 a.2);
    try done; try lia;
    destruct (Z.eqb_spec a.2 b.2), (Z.eqb_spec b.2 c.2), (Z.eqb_spec a.2 c.2);
    try done; try lia.
  apply string_leb_trans.
Qed.

Lemma order_by_Permutation {A : Type} (le : A -> A -> bool) (l : list A) :
  order_by le l ≡ₚ l.
Proof.
  induction l as [|x l IH]; simpl; [done|]. rewrite <- IH at 2.
  generalize (order_by le l). clear. intros l.
  induction l as [|y l IH]; simpl; [done|].
  destruct (le x y); [done|]. rewrite IH. apply Permutation_swap.
Qed.

(** The rows of the query are sorted by count, descending, then by name,
    ascending. *)
Lemma get_companies_and_vacancies_count_sorted (s : db) :
  sorted_by count_desc_name_leb (get_companies_and_vacancies_count s).
Proof.
  apply order_by_sorted; [apply count_desc_name_leb_total|apply count_desc_name_leb_trans].
Qed.

(** ** Further properties of the queries *)

Lemma join_row_iff (s : db) (r : company * vacancy) :
  r ∈ vacancies_join_companies s
  <-> r.2 ∈ vacancies s /\ r.1 ∈ companies s /\ c_id r.1 = v_company_id r.2.
Proof.
  split; [apply join_row_vacancy|]. destruct r as [c v]. simpl. intros (Hv & Hc & Hid).
  unfold vacancies_join_companies. apply list_elem_of_bind. exists v. split; [|done].
  apply list_elem_of_bind. exists c. split; [by apply list_elem_of_singleton|].
  by apply list_elem_of_filter.
Qed.

Lemma get_all_vacancies_elem (s : db) (r : VacancyView) :
  r ∈ get_all_vacancies s
  <-> exists c v, c ∈ companies s /\ v ∈ vacancies s
                  /\ c_id c = v_company_id v /\ r = select_view (c, v).
Proof.
  unfold get_all_vacancies. rewrite list_elem_of_fmap. split.
  - intros ([c v] & -> & Hr). apply order_by_elem, join_row_iff in Hr as (Hv & Hc & Hid).
    by exists c, v.
  - intros (c & v & Hc & Hv & Hid & ->). exists (c, v). split; [done|].
    by apply order_by_elem, join_row_iff.
Qed.

(** X1: the rows of [get_all_vacancies] are the pairs of a posting and
    the company that its [company_id] names (a posting without such a
    company is not listed), in the order of [ORDER BY c.name, v.title]. *)
Theorem get_all_vacancies_rows (s : db) :
  sorted_by view_leb (get_all_vacancies s)
  /\ forall r, r ∈ get_all_vacancies s
       <-> exists c v, c ∈ companies s /\ v ∈ vacancies s
                       /\ c_id c = v_company_id v /\ r = select_view (c, v).
Proof. split; [apply get_all_vacancies_sorted|apply get_all_vacancies_elem]. Qed.

Lemma filter_unique {A : Type} (f : A -> Z) (l : list A) (x : A) :
  NoDup (f <$> l) -> x ∈ l -> filter (fun y => f y = f x) l = [x].
Proof.
  induction l as [|y l IH]; [by intros _ ?%elem_of_nil|].
  rewrite fmap_cons, NoDup_cons. intros [Hy Hl] Hx.
  assert (Hnone : forall z, f z ∉ f <$> l -> filter (fun y => f y = f z) l = []).
  { intros z Hz. clear -Hz. induction l as [|w l IH]; [done|].
    rewrite filter_cons_False.
    - apply IH. intros H. apply Hz. rewrite fmap_cons. by right.
    - intros E. apply Hz. rewrite fmap_cons, <- E. by left. }
  apply elem_of_cons in Hx as [->|Hx].
  - rewrite filter_cons_True by done. by rewrite Hnone.
  - rewrite filter_cons_False; [by apply IH|].
    intros E. apply Hy. rewrite E. apply list_elem_of_fmap. eauto.
Qed.

Lemma order_by_length {A : Type} (le : A -> A -> bool) (l : list A) :
  length (order_by le l) = length l.
Proof.
  induction l as [|x l IH]; simpl; [done|]. rewrite <- IH.
  generalize (order_by le l). clear. intros l.
  induction l as [|y l IH]; simpl; [done|]. destruct (le x y); simpl; [done|]. by rewrite IH.
Qed.

Lemma join_length (s : db) :
  well_formed s -> length (vacancies_join_companies s) = length (vacancies s).
Proof.
  intros (Hid & _ & _ & _ & _ & _ & Hfk). unfold vacancies_join_companies.
  induction Hfk as [|v vs Hv Hvs IH]; [done|].
  rewrite bind_cons, length_app, IH. simpl. f_equal.
  apply list_elem_of_fmap in Hv as (c & E & Hc).
  assert (H : filter (fun c0 => c_id c0 = v_company_id v) (companies s) = [c]).
  { rewrite E. by apply filter_unique. }
  by rewrite H.
Qed.

(** X2: when the keys of the schema hold, [get_all_vacancies] lists every
    posting once: it returns as many rows as [vacancies] has. *)
Theorem get_all_vacancies_length (s : db) :
  well_formed s -> length (get_all_vacancies s) = length (vacancies s).
Proof.
  intros Hs. unfold get_all_vacancies.
  by rewrite length_fmap, order_by_length, join_length.
Qed.

Lemma get_all_vacancies_length_witness :
  well_formed acme_db /\ length (get_all_vacancies acme_db) = length (vacancies acme_db).
Proof.
  assert (H : well_formed acme_db) by (by apply (bool_decide_unpack _)).
  split; [exact H|]. exact (get_all_vacancies_length acme_db H).
Defined.

Lemma salary_case_none (sf st : option Z) :
  salary_case sf st = Ok None <-> sf = None /\ st = None.
Proof.
  unfold salary_case, int4pl. destruct sf as [f|], st as [t|]; simpl;
    try destruct (in_int4 (f + t)); simpl; split; try done; by intros [].
Qed.

Lemma sql_avg_none (xs : list (option Q)) :
  sql_avg xs = None <-> Forall (fun x => x = None) xs.
Proof.
  unfold sql_avg. induction xs as [|[x|] xs IH]; simpl.
  - split; [constructor|done].
  - split; [done|]. by inversion 1.
  - rewrite IH. split; [by constructor|by inversion 1].
Qed.

(** X3: [get_avg_salary] returns [None] exactly when no posting has a
    salary bound; this covers the empty table. *)
Theorem get_avg_salary_none (s : db) :
  get_avg_salary s = Ok None
  <-> Forall (fun v => v_salary_from v = None /\ v_salary_to v = None) (vacancies s).
Proof.
  split.
  - intros (xs & Hxs & Havg)%get_avg_salary_sound.
    symmetry in Havg. apply sql_avg_none in Havg.
    induction Hxs as [|v x vs xs Hv _ IH]; [constructor|].
    inversion Havg; subst. constructor; [by apply salary_case_none|by apply IH].
  - intros H. unfold get_avg_salary, select_avg_salary.
    assert (Hm : mapM (fun v => salary_case (v_salary_from v) (v_salary_to v)) (vacancies s)
                 = Ok ((fun _ => None) <$> vacancies s)).
    { apply mapM_result_Ok. induction H as [|v vs Hv _ IH]; csimpl; constructor; [|done].
      by apply salary_case_none. }
    rewrite Hm. simpl. f_equal. apply sql_avg_none.
    apply Forall_fmap, Forall_forall. done.
Qed.

Lemma higher_salary_filter (s : db) (avg_salary : option Q) :
  get_avg_salary s = Ok avg_salary ->
  get_vacancies_with_higher_salary s
  = Ok (List.filter (salary_above avg_salary) (get_all_vacancies s)).
Proof.
  unfold get_avg_salary, get_vacancies_with_higher_salary. intros Havg.
  rewrite Havg. simpl.
  rewrite (filter_rows_pure _ (fun r => salary_above avg_salary (select_view r))).
  - simpl. unfold get_all_vacancies.
    rewrite filter_fmap_swap, filter_order_by;
      [done | apply name_title_leb_total | apply name_title_leb_trans].
  - intros r Hr. apply join_row_vacancy in Hr as (Hv & _ & _).
    unfold select_avg_salary in Havg.
    destruct (mapM _ (vacancies s)) as [xs|e] eqn:Hxs; simpl in Havg; [|done].
    destruct (mapM_result_elem _ _ _ _ Hxs Hv) as [x Hx].
    unfold higher_than, salary_above. simpl. rewrite Hx. done.
Qed.

Lemma Qsum_above (a : Q) (l : list Q) :
  l <> [] -> Forall (fun x => (a < x)%Q) l ->
  (inject_Z (Z.of_nat (length l)) * a < Qsum l)%Q.
Proof.
  intros Hne Hall. induction Hall as [|x l Hx Hall IH]; [done|].
  assert (E : (inject_Z (Z.of_nat (length (x :: l))) * a
               == inject_Z (Z.of_nat (length l)) * a + a)%Q).
  { simpl length. rewrite Nat2Z.inj_succ, <- Z.add_1_r, inject_Z_plus.
    change (inject_Z 1) with 1%Q. ring. }
  rewrite E. change (Qsum (x :: l)) with (x + Qsum l)%Q.
  destruct l as [|y l].
  - change (Qsum []) with 0%Q. change (inject_Z (Z.of_nat (length (@nil Q)))) with 0%Q. lra.
  - assert (H := IH ltac:(done)).
    set (m := (inject_Z (Z.of_nat (length (y :: l))) * a)%Q) in *. lra.
Qed.

Lemma Qsum_some_below (l : list Q) :
  l <> [] ->
  Exists (fun x => (x <= Qsum l / inject_Z (Z.of_nat (length l)))%Q) l.
Proof.
  intros Hne. set (a := (Qsum l / inject_Z (Z.of_nat (length l)))%Q).
  destruct (decide (Exists (fun x => Qle_bool x a = true) l)) as [H|H].
  - eapply Exists_impl; [done|]. intros x Hx. by apply Qle_bool_iff.
  - exfalso. apply not_Exists_Forall in H; [|apply _].
    assert (Hall : Forall (fun x => (a < x)%Q) l).
    { eapply Forall_impl; [done|]. intros x Hx. simpl in Hx.
      apply Qnot_le_lt. intros Hle. apply Hx. by apply Qle_bool_iff. }
    apply (Qsum_above a) in Hall; [|done].
    assert (Hn : (0 < inject_Z (Z.of_nat (length l)))%Q).
    { change 0%Q with (inject_Z 0). rewrite <- Zlt_Qlt. destruct l; [done|simpl; lia]. }
    assert (E : (inject_Z (Z.of_nat (length l)) * a == Qsum l)%Q).
    { unfold a. field. intros E. rewrite E in Hn. by apply Qlt_irrefl in Hn. }
    rewrite E in Hall. by apply Qlt_irrefl in Hall.
Qed.

Lemma Qsum_below (a : Q) (l : list Q) :
  l <> [] -> Forall (fun x => (x < a)%Q) l ->
  (Qsum l < inject_Z (Z.of_nat (length l)) * a)%Q.
Proof.
  intros Hne Hall. induction Hall as [|x l Hx Hall IH]; [done|].
  assert (E : (inject_Z (Z.of_nat (length (x :: l))) * a
               == inject_Z (Z.of_nat (length l)) * a + a)%Q).
  { simpl length. rewrite Nat2Z.inj_succ, <- Z.add_1_r, inject_Z_plus.
    change (inject_Z 1) with 1%Q. ring. }
  rewrite E. change (Qsum (x :: l)) with (x + Qsum l)%Q.
  destruct l as [|y l].
  - change (Qsum []) with 0%Q. change (inject_Z (Z.of_nat (length (@nil Q)))) with 0%Q. lra.
  - assert (H := IH ltac:(done)).
    set (m := (inject_Z (Z.of_nat (length (y :: l))) * a)%Q) in *. lra.
Qed.

Lemma Qsum_some_above (l : list Q) :
  l <> [] ->
  Exists (fun x => (Qsum l / inject_Z (Z.of_nat (length l)) <= x)%Q) l.
Proof.
  intros Hne. set (a := (Qsum l / inject_Z (Z.of_nat (length l)))%Q).
  destruct (decide (Exists (fun x => Qle_bool a x = true) l)) as [H|H].
  - eapply Exists_impl; [done|]. intros x Hx. by apply Qle_bool_iff.
  - exfalso. apply not_Exists_Forall in H; [|apply _].
    assert (Hall : Forall (fun x => (x < a)%Q) l).
    { eapply Forall_impl; [done|]. intros x Hx. simpl in Hx.
      apply Qnot_le_lt. intros Hle. apply Hx. by apply Qle_bool_iff. }
    apply (Qsum_below a) in Hall; [|done].
    assert (Hn : (0 < inject_Z (Z.of_nat (length l)))%Q).
    { change 0%Q with (inject_Z 0). rewrite <- Zlt_Qlt. destruct l; [done|simpl; lia]. }
    assert (E : (inject_Z (Z.of_nat (length l)) * a == Qsum l)%Q).
    { unfold a. field. intros E. rewrite E in Hn. by apply Qlt_irrefl in Hn. }
    rewrite E in Hall. by apply Qlt_irrefl in Hall.
Qed.

(** A value that [AVG] aggregates is the computed salary of a posting. *)
Lemma salary_case_posting (s : db) (xs : list (option Q)) (x : Q) :
  Forall2 (fun v x => salary_case (v_salary_from v) (v_salary_to v) = Ok x) (vacancies s) xs ->
  x ∈ omap id xs ->
  exists v x', v ∈ vacancies s /\ computed_salary v = Some x' /\ (x == x')%Q.
Proof.
  intros Hxs Hx. apply list_elem_of_omap in Hx as (ox & Hox & Hid).
  simpl in Hid. subst ox.
  apply list_elem_of_lookup in Hox as [i Hi].
  destruct (Forall2_lookup_r _ _ _ _ _ Hxs Hi) as (v & Hv & Hcase).
  apply salary_case_defined in Hcase. unfold computed_salary.
  exists v. destruct (v_salary_from v) as [f|], (v_salary_to v) as [t|]; [| | |done];
    eexists; (split; [by eapply list_elem_of_lookup_2|]); (split; [reflexivity|exact Hcase]).
Qed.

(** X4: an average that [get_avg_salary] returns lies between the
    computed salaries of the postings (the mean of the two bounds, or the
    only bound): some posting has a computed salary that is not above the
    average, and some posting has one that is not below it. *)
Theorem get_avg_salary_between (s : db) (a : Q) :
  get_avg_salary s = Ok (Some a) ->
  exists lo hi x y,
    lo ∈ vacancies s /\ hi ∈ vacancies s
    /\ computed_salary lo = Some x /\ computed_salary hi = Some y
    /\ (x <= a)%Q /\ (a <= y)%Q.
Proof.
  intros (xs & Hxs & Ha)%get_avg_salary_sound.
  unfold sql_avg in Ha. destruct (omap id xs) as [|z zs] eqn:Hzs; [done|].
  injection Ha as ->.
  pose proof (Qsum_some_below (z :: zs) ltac:(done)) as Hlow.
  pose proof (Qsum_some_above (z :: zs) ltac:(done)) as Hhigh.
  apply Exists_exists in Hlow as (x0 & Hx0 & Hle).
  apply Exists_exists in Hhigh as (y0 & Hy0 & Hge).
  rewrite <- Hzs in Hx0, Hy0.
  destruct (salary_case_posting s xs x0 Hxs Hx0) as (lo & x & Hlo & Hx & Ex).
  destruct (salary_case_posting s xs y0 Hxs Hy0) as (hi & y & Hhi & Hy & Ey).
  exists lo, hi, x, y. repeat (split; [done|]). split.
  - by rewrite <- Ex.
  - by rewrite <- Ey.
Qed.

Lemma get_avg_salary_between_witness :
  exists a, get_avg_salary acme_db = Ok (Some a)
            /\ exists lo hi x y,
                 lo ∈ vacancies acme_db /\ hi ∈ vacancies acme_db
                 /\ computed_salary lo = Some x /\ computed_salary hi = Some y
                 /\ (x <= a)%Q /\ (a <= y)%Q.
Proof.
  eexists. split; [reflexivity|].
  apply (get_avg_salary_between acme_db). reflexivity.
Defined.

Lemma filter_shorter {A : Type} (p : A -> bool) (l : list A) :
  Exists (fun x => p x = false) l -> (length (List.filter p l) < length l)%nat.
Proof.
  assert (Hle : forall l : list A, (length (List.filter p l) <= length l)%nat).
  { intros k. induction k as [|x k IH]; simpl; [lia|]. destruct (p x); simpl; lia. }
  induction 1 as [x l Hx|x l _ IH]; simpl.
  - rewrite Hx. specialize (Hle l). lia.
  - destruct (p x); simpl; lia.
Qed.

(** X5: when the keys of the schema hold and there is a posting, the
    postings above the average are fewer than all postings: a posting
    without salary, or a posting with the least salary, is left out. *)
Theorem get_vacancies_with_higher_salary_fewer (s : db) (rows : list VacancyView) :
  well_formed s -> vacancies s <> [] ->
  get_vacancies_with_higher_salary s = Ok rows ->
  (length rows < length (get_all_vacancies s))%nat.
Proof.
  intros Hs Hne Hrows.
  destruct (get_avg_salary s) as [avg_salary|e] eqn:Havg.
  2:{ unfold get_vacancies_with_higher_salary, get_avg_salary in *.
      by rewrite Havg in Hrows. }
  rewrite (higher_salary_filter s avg_salary Havg) in Hrows. injection Hrows as <-.
  apply filter_shorter.
  assert (Hview : forall v, v ∈ vacancies s ->
            exists r, r ∈ get_all_vacancies s
                      /\ salary_from r = v_salary_from v /\ salary_to r = v_salary_to v).
  { intros v Hv. destruct Hs as (_ & _ & _ & _ & _ & _ & Hfk).
    rewrite Forall_forall in Hfk. apply Hfk in Hv as Hc.
    apply list_elem_of_fmap in Hc as (c & Hid & Hc).
    exists (select_view (c, v)). split; [|done].
    apply get_all_vacancies_elem. by exists c, v. }
  apply Exists_exists.
  apply get_avg_salary_sound in Havg as (xs & Hxs & ->).
  unfold sql_avg. destruct (omap id xs) as [|y ys] eqn:Hys.
  - destruct (vacancies s) as [|v vs] eqn:Hvs; [done|].
    destruct (Hview v) as (r & Hr & _); [by left|]. exists r. split; [done|].
    unfold salary_above. by destruct (salary_case _ _) as [[x|]|].
  - pose proof (Qsum_some_below (y :: ys) ltac:(done)) as Hlow.
    apply Exists_exists in Hlow as (x & Hx & Hle).
    rewrite <- Hys in Hx. apply list_elem_of_omap in Hx as (ox & Hox & Hid).
    simpl in Hid. subst ox.
    apply list_elem_of_lookup in Hox as [i Hi].
    destruct (Forall2_lookup_r _ _ _ _ _ Hxs Hi) as (v & Hv & Hcase).
    destruct (Hview v) as (r & Hr & Hf & Ht); [by eapply list_elem_of_lookup_2|].
    exists r. split; [done|]. unfold salary_above. rewrite Hf, Ht, Hcase.
    unfold where_holds, sql_gt, Qlt_bool. apply Qle_bool_iff in Hle. by rewrite Hle.
Qed.

Lemma get_vacancies_with_higher_salary_fewer_witness :
  exists rows,
    get_vacancies_with_higher_salary acme_db = Ok rows
    /\ (length rows < length (get_all_vacancies acme_db))%nat.
Proof.
  eexists. split; [reflexivity|].
  apply (get_vacancies_with_higher_salary_fewer acme_db).
  - by apply (bool_decide_unpack _).
  - discriminate.
  - reflexivity.
Defined.

Lemma get_vacancies_with_keyword_plain_witness :
  ascii_text "python" = true /\ plain_keyword "python" = true
  /\ exists rows,
       get_vacancies_with_keyword titled_db "python" = Ok rows
       /\ sublist rows (get_all_vacancies titled_db)
       /\ List.filter (fun r => ascii_text (vacancy_title r)) rows
          = List.filter (fun r => ascii_text (vacancy_title r)
                                  && contains_keyword (vacancy_title r) "python")
              (get_all_vacancies titled_db).
Proof.
  split; [reflexivity|]. split; [reflexivity|].
  apply (get_vacancies_with_keyword_plain titled_db "python"); reflexivity.
Defined.

(** A pattern that is empty or ends in [%] never ends inside an escape. *)
Lemma like_total (n : nat) :
  forall p : list ascii,
    (length p <= n)%nat -> (p = [] \/ last p = Some "%"%char) ->
    forall t, exists b, like p t = Ok b.
Proof.
  induction n as [n IH] using lt_wf_ind. intros [|c p] Hn Hp t; [by eexists|].
  assert (Htail : p = [] \/ last p = Some "%"%char).
  { destruct p as [|d p]; [by left|right]. by destruct Hp. }
  assert (Hrec : forall t, exists b, like p t = Ok b).
  { apply (IH (length p)); [simpl in Hn; lia|done|done]. }
  destruct (Ascii.eqb c "%") eqn:E1.
  { apply Ascii.eqb_eq in E1 as ->.
    induction t as [|d t IHt]; rewrite like_percent;
      destruct (Hrec []) as [b0 H0]; try rewrite H0.
    - simpl. destruct b0; by eexists.
    - destruct (Hrec (d :: t)) as [b Hb]. rewrite Hb. simpl.
      destruct b; [by eexists|done]. }
  destruct (Ascii.eqb c "_") eqn:E2.
  { apply Ascii.eqb_eq in E2 as ->. destruct t as [|d t]; [by eexists|].
    apply (Hrec t). }
  destruct (Ascii.eqb c "\") eqn:E3.
  { apply Ascii.eqb_eq in E3 as ->.
    destruct p as [|e p].
    - destruct Hp as [?|Hp]; [done|]. by simpl in Hp.
    - destruct t as [|d t]; [by eexists|]. simpl.
      destruct (Ascii.eqb e d); [|by eexists].
      apply (IH (length p)); [simpl in Hn; lia|done|].
      destruct p as [|f p]; [by left|right].
      destruct Htail as [?|Htail]; [done|]. done. }
  rewrite like_literal by (unfold like_special; by rewrite E1, E2, E3).
  destruct t as [|d t]; [by eexists|]. destruct (Ascii.eqb c d); [apply Hrec|by eexists].
Qed.

Lemma keyword_pattern (keyword : string) :
  lower (list_ascii_of_string ("%" ++ keyword ++ "%"))
  = "%"%char :: lower (list_ascii_of_string keyword) ++ ["%"%char].
Proof.
  change ("%" ++ keyword ++ "%")%string with (String "%" (keyword ++ "%"))%string.
  unfold lower. simpl list_ascii_of_string.
  by rewrite list_ascii_of_string_app, map_cons, map_app.
Qed.

Lemma ilike_keyword_total (text keyword : string) :
  exists b, ilike text ("%" ++ keyword ++ "%") = Ok b.
Proof.
  unfold ilike. rewrite keyword_pattern.
  eapply like_total; [done|]. right.
  change ("%"%char :: lower (list_ascii_of_string keyword) ++ ["%"%char])
    with (("%"%char :: lower (list_ascii_of_string keyword)) ++ ["%"%char]).
  apply last_snoc.
Qed.

Lemma filter_rows_ext {A : Type} (f g : A -> result bool) (l : list A) :
  (forall x, x ∈ l -> f x = g x) -> filter_rows f l = filter_rows g l.
Proof.
  induction l as [|x l IH]; intros H; simpl; [done|].
  rewrite (H x) by (by left). rewrite IH; [done|]. intros y Hy. apply H. by right.
Qed.

(** X7: the keyword search raises, with [ValueError] and on every
    database, exactly when the keyword holds a NUL character. Every other
    keyword is answered, also one that holds [%], [_] or backslash:
    whether a posting is returned depends on its title alone, and the rows
    come in the order of [get_all_vacancies]. *)
Theorem get_vacancies_with_keyword_total (keyword : string) :
  if existsb (Ascii.eqb zero) (list_ascii_of_string keyword)
  then forall s : db, get_vacancies_with_keyword s keyword = Raise ValueError
  else exists matches : string -> bool,
         forall s : db,
           get_vacancies_with_keyword s keyword
           = Ok (List.filter (fun r => matches (vacancy_title r)) (get_all_vacancies s)).
Proof.
  destruct (existsb _ _) eqn:Hnul.
  { intros s. unfold get_vacancies_with_keyword. by rewrite adapt_text_pattern, Hnul. }
  exists (fun title => match ilike title ("%" ++ keyword ++ "%") with
                       | Ok b => b
                       | Raise _ => false
                       end).
  intros s. unfold get_vacancies_with_keyword. rewrite adapt_text_pattern, Hnul. simpl.
  rewrite (filter_rows_pure _
             (fun r => match ilike (v_title r.2) ("%" ++ keyword ++ "%") with
                       | Ok b => b
                       | Raise _ => false
                       end)).
  - simpl. unfold get_all_vacancies.
    rewrite filter_fmap_swap, filter_order_by;
      [done | apply name_title_leb_total | apply name_title_leb_trans].
  - intros r _. by destruct (ilike_keyword_total (v_title r.2) keyword) as [b ->].
Qed.

Lemma lower_char_zero (c : ascii) : Ascii.eqb zero (lower_char c) = Ascii.eqb zero c.
Proof. by destruct c as [[] [] [] [] [] [] [] []]. Qed.

Lemma existsb_zero_lower (l : list ascii) :
  existsb (Ascii.eqb zero) (lower l) = existsb (Ascii.eqb zero) l.
Proof.
  unfold lower. induction l as [|c l IH]; [done|].
  cbn [map existsb]. by rewrite lower_char_zero, IH.
Qed.

(** X8: the keyword search ignores the case of the keyword: two
    keywords that differ only in the case of ASCII letters give the same
    result on every database. *)
Theorem get_vacancies_with_keyword_case (s : db) (keyword keyword' : string) :
  lower (list_ascii_of_string keyword) = lower (list_ascii_of_string keyword') ->
  get_vacancies_with_keyword s keyword = get_vacancies_with_keyword s keyword'.
Proof.
  intros H. unfold get_vacancies_with_keyword. rewrite !adapt_text_pattern.
  rewrite <- (existsb_zero_lower (list_ascii_of_string keyword)), H, existsb_zero_lower.
  destruct (existsb _ _); [done|]. simpl.
  rewrite (filter_rows_ext _ (fun r => ilike (v_title r.2) ("%" ++ keyword' ++ "%"))); [done|].
  intros r _. unfold ilike. by rewrite !keyword_pattern, H.
Qed.

Lemma get_vacancies_with_keyword_case_witness :
  lower (list_ascii_of_string "PyThOn") = lower (list_ascii_of_string "python")
  /\ get_vacancies_with_keyword titled_db "PyThOn" = get_vacancies_with_keyword titled_db "python".
Proof.
  split; [reflexivity|].
  apply (get_vacancies_with_keyword_case titled_db "PyThOn" "python"). reflexivity.
Defined.

(** X9: when the stored companies have distinct names,
    [get_companies_and_vacancies_count] returns one row per company, made
    of its name and the number of its postings, 0 for a company without
    postings. *)
Theorem get_companies_and_vacancies_count_per_company (s : db) :
  NoDup (c_name <$> companies s) ->
  get_companies_and_vacancies_count s
    ≡ₚ (fun c => (c_name c, vacancies_of s c)) <$> companies s
  /\ length (get_companies_and_vacancies_count s) = length (companies s).
Proof.
  intros H. rewrite get_companies_and_vacancies_count_distinct by done.
  split; [apply order_by_Permutation|].
  by rewrite order_by_length, length_fmap.
Qed.

Lemma get_companies_and_vacancies_count_per_company_witness :
  NoDup (c_name <$> companies idle_db)
  /\ get_companies_and_vacancies_count idle_db
       ≡ₚ (fun c => (c_name c, vacancies_of idle_db c)) <$> companies idle_db
  /\ length (get_companies_and_vacancies_count idle_db) = length (companies idle_db).
Proof.
  assert (H : NoDup (c_name <$> companies idle_db)) by (by apply (bool_decide_unpack _)).
  split; [exact H|]. exact (get_companies_and_vacancies_count_per_company idle_db H).
Defined.

Lemma left_join_names_iff (s : db) (n : string) :
  n ∈ (fun r : company * option vacancy => c_name r.1) <$> companies_left_join_vacancies s
  <-> n ∈ c_name <$> companies s.
Proof.
  split; [apply left_join_names|].
  intros (c & -> & Hc)%list_elem_of_fmap.
  destruct (left_join_rows s c) as [|r l] eqn:E; [by apply left_join_rows_not_nil in E|].
  assert (Hr : r ∈ left_join_rows s c) by (rewrite E; by left).
  apply list_elem_of_fmap. exists r. split.
  - by rewrite (left_join_rows_company _ _ _ Hr).
  - unfold companies_left_join_vacancies. apply list_elem_of_bind. eauto.
Qed.

(** X10: whatever the tables hold, the rows of
    [get_companies_and_vacancies_count] are sorted by count, descending,
    then by name, ascending; no name comes twice, and the names are those
    of the stored companies. *)
Theorem get_companies_and_vacancies_count_names (s : db) :
  sorted_by count_desc_name_leb (get_companies_and_vacancies_count s)
  /\ NoDup ((get_companies_and_vacancies_count s).*1)
  /\ forall n, n ∈ (get_companies_and_vacancies_count s).*1 <-> n ∈ c_name <$> companies s.
Proof.
  split; [apply get_companies_and_vacancies_count_sorted|].
  assert (H : (get_companies_and_vacancies_count s).*1
              ≡ₚ group_by_name (companies_left_join_vacancies s)).
  { unfold get_companies_and_vacancies_count. cbv zeta.
    rewrite order_by_Permutation, <- list_fmap_compose.
    rewrite (list_fmap_ext _ id); [by rewrite list_fmap_id|done]. }
  split.
  - rewrite H. apply NoDup_remove_dups.
  - intros n. rewrite H. unfold group_by_name.
    rewrite elem_of_remove_dups. apply left_join_names_iff.
Qed.

(** ** Keys and serial ids under [ON CONFLICT DO UPDATE] *)

Module UpsertInvariants.
Import Upsert.
Section Table.
Context {Row Rec : Type}.
Variable row_key : Row -> Z.
Variable key : Rec -> Z.
Variable rid : Rec -> Z.
Variable constraints : Row -> result unit.
Variable inserted : Z -> Row -> Rec.
Variable updated : Row -> Rec -> Rec.

Hypothesis key_inserted : forall i r, key (inserted i r) = row_key r.
Hypothesis key_updated : forall r c, key (updated r c) = key c.
Hypothesis rid_inserted : forall i r, rid (inserted i r) = i.
Hypothesis rid_updated : forall r c, rid (updated r c) = rid c.

#[local] Abbreviation upsert_row := (upsert_row row_key key constraints inserted updated).
#[local] Abbreviation upsert_rows := (upsert_rows row_key key constraints inserted updated).
#[local] Abbreviation statement := (statement row_key key constraints inserted updated).
#[local] Abbreviation execute_values := (execute_values row_key key constraints inserted updated).
#[local] Abbreviation touch r := (fun c => if key c =? row_key r then updated r c else c).

(** The table has unique keys and unique ids, all below the sequence. *)
Lemma touch_key (r : Row) (t : list Rec) : key <$> (touch r <$> t) = key <$> t.
Proof.
  rewrite <- list_fmap_compose. apply list_fmap_ext. intros i c _. simpl.
  destruct (key c =? row_key r); [apply key_updated|done].
Qed.

Lemma touch_rid (r : Row) (t : list Rec) : rid <$> (touch r <$> t) = rid <$> t.
Proof.
  rewrite <- list_fmap_compose. apply list_fmap_ext. intros i c _. simpl.
  destruct (key c =? row_key r); [apply rid_updated|done].
Qed.

Lemma upsert_row_keys (st st' : list Rec * Z) (r : Row) :
  upsert_row st r = Ok st' ->
  NoDup (key <$> st.1) -> NoDup (rid <$> st.1) -> Forall (fun c => rid c < st.2) st.1 ->
  NoDup (key <$> st'.1) /\ NoDup (rid <$> st'.1) /\ Forall (fun c => rid c < st'.2) st'.1.
Proof.
  destruct st as [t q], st' as [t' q']. simpl.
  intros H Hk Hi Hq. apply UpsertFacts.upsert_row_Ok in H as (_ & Hq' & H).
  simpl in Hq', H. subst q'. destruct H as [[_ ->]|[Hno ->]].
  - rewrite touch_key, touch_rid. split; [done|]. split; [done|].
    apply Forall_fmap. eapply Forall_impl; [done|]. intros c Hc. simpl in *.
    destruct (key c =? row_key r); [rewrite rid_updated|]; lia.
  - rewrite !fmap_app. simpl. rewrite key_inserted, rid_inserted. split; [|split].
    + apply NoDup_app. split; [done|]. split; [|apply NoDup_singleton].
      intros k Hin ->%list_elem_of_singleton.
      apply list_elem_of_fmap in Hin as (c & E & Hc).
      rewrite Forall_forall in Hno. by destruct (Hno c Hc).
    + apply NoDup_app. split; [done|]. split; [|apply NoDup_singleton].
      intros k Hin ->%list_elem_of_singleton.
      apply list_elem_of_fmap in Hin as (c & E & Hc).
      rewrite Forall_forall in Hq. specialize (Hq c Hc). lia.
    + apply Forall_app. split.
      * eapply Forall_impl; [done|]. intros c Hc. simpl in Hc. lia.
      * constructor; [|done]. rewrite rid_inserted. lia.
Qed.

Lemma upsert_rows_keys (rows : list Row) (st st' : list Rec * Z) :
  upsert_rows st rows = Ok st' ->
  NoDup (key <$> st.1) -> NoDup (rid <$> st.1) -> Forall (fun c => rid c < st.2) st.1 ->
  NoDup (key <$> st'.1) /\ NoDup (rid <$> st'.1) /\ Forall (fun c => rid c < st'.2) st'.1.
Proof.
  revert st. induction rows as [|r rows IH]; intros st; simpl.
  - by intros [= ->].
  - destruct (upsert_row st r) as [st1|] eqn:H1; simpl; [|done].
    intros H Hk Hi Hq. destruct (upsert_row_keys _ _ _ H1 Hk Hi Hq) as (? & ? & ?).
    by eapply IH.
Qed.

(** A stored row keeps its id and its key, and keeps all its values when
    its key is not proposed. *)
Lemma upsert_rows_keeps_id (rows : list Row) (st st' : list Rec * Z) (c : Rec) :
  upsert_rows st rows = Ok st' -> c ∈ st.1 ->
  exists c', c' ∈ st'.1 /\ key c' = key c /\ rid c' = rid c
             /\ ((forall r, r ∈ rows -> row_key r <> key c) -> c' = c).
Proof.
  revert st c. induction rows as [|r rows IH]; intros st c; simpl.
  - intros [= ->] Hc. exists c. by repeat split.
  - destruct (upsert_row st r) as [st1|] eqn:H1; simpl; [|done].
    intros H Hc. pose proof H1 as H1'.
    destruct st as [t q], st1 as [t1 q1].
    apply UpsertFacts.upsert_row_Ok in H1 as (_ & _ & H1). simpl in H1, Hc.
    assert (Hc1 : touch r c ∈ t1).
    { destruct H1 as [[_ ->]|[Hno ->]].
      - apply list_elem_of_fmap. eauto.
      - rewrite Forall_forall in Hno. specialize (Hno c Hc).
        destruct (Z.eqb_spec (key c) (row_key r)); [done|].
        apply elem_of_app. by left. }
    destruct (IH (t1, q1) (touch r c) H Hc1) as (c' & Hc' & Hk & Hi & Hsame).
    exists c'. split; [done|].
    assert (Hkey : key (touch r c) = key c).
    { destruct (key c =? row_key r); [apply key_updated|done]. }
    assert (Hrid : rid (touch r c) = rid c).
    { destruct (key c =? row_key r); [apply rid_updated|done]. }
    split; [etrans; [exact Hk|exact Hkey]|]. split; [etrans; [exact Hi|exact Hrid]|].
    intros Hno. rewrite Hsame.
    + destruct (Z.eqb_spec (key c) (row_key r)) as [E|E]; [|done].
      destruct (Hno r); [by left|done].
    + intros r' Hr'. rewrite Hkey. apply Hno. by right.
Qed.

(** The rows of an accepted batch satisfy the column constraints. *)
Lemma upsert_rows_constraints (rows : list Row) (st st' : list Rec * Z) :
  upsert_rows st rows = Ok st' -> Forall (fun r => constraints r = Ok ()) rows.
Proof.
  revert st. induction rows as [|r rows IH]; intros st; simpl; [constructor|].
  destruct (upsert_row st r) as [st1|] eqn:H1; simpl; [|done].
  intros H. constructor; [|by eapply IH].
  by apply UpsertFacts.upsert_row_Ok in H1 as (? & _).
Qed.

(** A statement that is accepted proposes no key twice. *)
Lemma statement_NoDup (page : list Row) (touched : gset Z) (st st' : list Rec * Z) :
  statement touched st page = Ok st' ->
  NoDup (row_key <$> page) /\ Forall (fun r => row_key r ∉ touched) page.
Proof.
  revert touched st. induction page as [|r page IH]; intros touched st; simpl.
  - intros _. split; constructor.
  - case_bool_decide as Hr; [done|].
    destruct (upsert_row st r) as [st1|]; simpl; [|done].
    intros [Hnd Hall]%IH. split.
    + apply NoDup_cons. split; [|done].
      intros (r' & E & Hr')%list_elem_of_fmap.
      rewrite Forall_forall in Hall. apply (Hall r' Hr'). rewrite <- E.
      apply elem_of_union. left. by apply elem_of_singleton.
    + constructor; [done|]. eapply Forall_impl; [done|]. intros r' Hr' Hin. simpl in Hr'.
      apply Hr', elem_of_union. by right.
Qed.

Lemma paginate_single (rows : list Row) :
  rows <> [] -> (length rows <= 100)%nat -> paginate 100 rows = [rows].
Proof.
  intros Hne Hlen. unfold paginate. destruct rows as [|r rows]; [done|].
  change (paginate_fuel (length (r :: rows)) 100 (r :: rows))
    with (take 100 (r :: rows) :: paginate_fuel (length rows) 100 (drop 100 (r :: rows))).
  rewrite take_ge, drop_ge by done. by destruct (length rows).
Qed.

Lemma execute_values_NoDup (rows : list Row) (st st' : list Rec * Z) :
  execute_values st rows = Ok st' -> (length rows <= 100)%nat -> NoDup (row_key <$> rows).
Proof.
  intros H Hlen. destruct rows as [|r rows]; [constructor|].
  unfold Upsert.execute_values in H. rewrite paginate_single in H by done.
  remember (r :: rows) as page. simpl in H.
  destruct (statement ∅ st page) as [st1|] eqn:E; [|done].
  by apply statement_NoDup in E as [? _].
Qed.

(** With distinct keys, the last proposal for the key of a row is the row. *)
Lemma last_row_NoDup (rows : list Row) (r : Row) :
  NoDup (row_key <$> rows) -> r ∈ rows -> last_row row_key (row_key r) rows = Some r.
Proof.
  induction rows as [|r0 rows IH]; [by intros _ ?%elem_of_nil|].
  rewrite fmap_cons, NoDup_cons. intros [Hr0 Hnd] [->|Hr]%elem_of_cons; simpl.
  - destruct (last_row row_key (row_key r0) rows) as [r'|] eqn:E.
    + apply UpsertFacts.last_row_Some in E as [Hr' E]. destruct Hr0.
      rewrite <- E. apply list_elem_of_fmap. eauto.
    + by rewrite Z.eqb_refl.
  - by rewrite IH.
Qed.
End Table.
End UpsertInvariants.

(** ** Further properties of [upsert_companies] *)

Lemma company_constraints_Ok (emp : employer_payload) :
  company_constraints (company_row_of emp) = Ok ()
  -> in_int4 (emp_id emp) = true /\ emp_name emp <> Null.
Proof.
  unfold company_constraints, company_row_of, check_int4, check_not_null. simpl.
  destruct (check_text (get_default (emp_name emp) EmptyString)); simpl; [|done].
  destruct (check_text (py_or (emp_alternate_url emp) (emp_url emp))); simpl; [|done].
  destruct (in_int4 (emp_id emp)); simpl; [|done].
  by destruct (emp_name emp).
Qed.

Lemma upsert_companies_rows (employers : list employer_payload) (s s' : db) :
  upsert_companies employers s = Ok s' ->
  Upsert.upsert_rows cr_hh_id c_hh_id company_constraints company_inserted company_updated
    (companies s, companies_id_seq s) (company_row_of <$> employers)
  = Ok (companies s', companies_id_seq s').
Proof.
  intros [_ [[-> ->]|[_ H]]]%upsert_companies_Ok; [done|].
  by apply UpsertFacts.execute_values_upsert_rows.
Qed.



(** X12: [upsert_companies] never removes a company and never changes
    an [id] or an [hh_id]: a company stored before the call is stored
    after it with the same [id] and [hh_id], and unchanged when its
    [hh_id] is not in the batch. The table [vacancies] is not touched. *)
Theorem upsert_companies_keeps (employers : list employer_payload) (s s' : db) (c : company) :
  upsert_companies employers s = Ok s' ->
  c ∈ companies s ->
  vacancies s' = vacancies s
  /\ vacancies_id_seq s' = vacancies_id_seq s
  /\ exists c', c' ∈ companies s'
                /\ c_id c' = c_id c /\ c_hh_id c' = c_hh_id c
                /\ (c_hh_id c ∉ emp_id <$> employers -> c' = c).
Proof.
  intros H Hc. pose proof H as [Hv _]%upsert_companies_Ok. split; [done|]. split.
  { unfold upsert_companies in H. case_bool_decide; [by injection H as <-|].
    destruct (Upsert.execute_values _ _ _ _ _ _ _) as [[cs q]|]; simpl in H; [|done].
    by injection H as <-. }
  apply upsert_companies_rows in H.
  destruct (UpsertInvariants.upsert_rows_keeps_id cr_hh_id c_hh_id c_id company_constraints
              company_inserted company_updated ltac:(done) ltac:(done) _ _ _ c H Hc)
    as (c' & Hc' & Hk & Hi & Hsame).
  exists c'. split; [done|]. split; [done|]. split; [done|].
  intros Hno. apply Hsame. intros r (emp & -> & Hemp)%list_elem_of_fmap E.
  apply Hno. rewrite <- E. apply list_elem_of_fmap. eauto.
Qed.

Lemma upsert_companies_keeps_witness :
  upsert_companies [zeta_employer] acme_db
  = Ok (after acme_db (upsert_companies [zeta_employer] acme_db))
  /\ exists c', c' ∈ companies (after acme_db (upsert_companies [zeta_employer] acme_db))
                /\ c_id c' = c_id acme /\ c_hh_id c' = c_hh_id acme
                /\ (c_hh_id acme ∉ emp_id <$> [zeta_employer] -> c' = acme).
Proof.
  assert (H : upsert_companies [zeta_employer] acme_db
              = Ok (after acme_db (upsert_companies [zeta_employer] acme_db))) by reflexivity.
  split; [exact H|].
  apply (upsert_companies_keeps [zeta_employer] acme_db _ acme H). by left.
Defined.

(** X13: a batch that [upsert_companies] accepts has only ids in the
    [INTEGER] range and no [null] name, and, when it has at most 100
    employers (one page of [execute_values]), no id twice: a batch that
    repeats an employer is refused as a whole. *)
Theorem upsert_companies_accepts (employers : list employer_payload) (s s' : db) :
  upsert_companies employers s = Ok s' ->
  Forall (fun emp => in_int4 (emp_id emp) = true /\ emp_name emp <> Null) employers
  /\ ((length employers <= 100)%nat -> NoDup (emp_id <$> employers)).
Proof.
  intros H. split.
  - apply upsert_companies_rows, UpsertInvariants.upsert_rows_constraints in H.
    apply Forall_fmap in H. eapply Forall_impl; [done|].
    intros emp Hemp. by apply company_constraints_Ok.
  - intros Hlen. apply upsert_companies_Ok in H as [_ [[-> _]|[_ H]]]; [constructor|].
    apply UpsertInvariants.execute_values_NoDup in H; [|by rewrite length_fmap].
    by rewrite <- list_fmap_compose in H.
Qed.

Lemma upsert_companies_accepts_witness :
  upsert_companies [acme_renamed; zeta_employer] acme_db = Ok acme_db_companies
  /\ Forall (fun emp => in_int4 (emp_id emp) = true /\ emp_name emp <> Null)
       [acme_renamed; zeta_employer]
  /\ ((length [acme_renamed; zeta_employer] <= 100)%nat ->
      NoDup (emp_id <$> [acme_renamed; zeta_employer])).
Proof.
  assert (H : upsert_companies [acme_renamed; zeta_employer] acme_db = Ok acme_db_companies)
    by reflexivity.
  split; [exact H|]. exact (upsert_companies_accepts _ _ _ H).
Defined.

(** A batch that names employer 42 twice is refused, and a [null] name
    and a name with a NUL character too. *)
Lemma upsert_companies_refused :
  upsert_companies [acme_renamed; zeta_employer; acme_renamed] acme_db
  = Raise CardinalityViolation
  /\ upsert_companies [{| emp_id := 5; emp_name := Null;
                          emp_alternate_url := None; emp_url := None |}] acme_db
     = Raise NotNullViolation
  /\ upsert_companies [{| emp_id := 5; emp_name := Value (String zero "Acme");
                          emp_alternate_url := None; emp_url := None |}] acme_db
     = Raise ValueError.
Proof. repeat split; reflexivity. Qed.

(** ** The keys of the schema are kept by the loader *)

Lemma upsert_companies_seq (employers : list employer_payload) (s s' : db) :
  upsert_companies employers s = Ok s' -> vacancies_id_seq s' = vacancies_id_seq s.
Proof.
  unfold upsert_companies. case_bool_decide; [by intros [= <-]|].
  destruct (Upsert.execute_values _ _ _ _ _ _ _) as [[cs q]|]; simpl; [|done].
  by intros [= <-].
Qed.

Lemma insert_vacancies_seq (fromisoformat : string -> result datetime)
    (vacs : list vacancy_payload) (s s' : db) :
  insert_vacancies fromisoformat vacs s = Ok s' -> companies_id_seq s' = companies_id_seq s.
Proof.
  unfold insert_vacancies.
  destruct (vacancy_rows fromisoformat (company_mapping s) vacs) as [rows|]; simpl; [|done].
  case_bool_decide; [by intros [= <-]|].
  destruct (Upsert.execute_values _ _ _ _ _ _ _) as [[vs q]|]; simpl; [|done].
  by intros [= <-].
Qed.

Lemma insert_vacancies_rows (fromisoformat : string -> result datetime)
    (vacs : list vacancy_payload) (s s' : db) :
  insert_vacancies fromisoformat vacs s = Ok s' ->
  exists rows,
    vacancy_rows fromisoformat (company_mapping s) vacs = Ok rows
    /\ Upsert.upsert_rows vr_hh_id v_hh_id vacancy_constraints vacancy_inserted vacancy_updated
         (vacancies s, vacancies_id_seq s) rows
       = Ok (vacancies s', vacancies_id_seq s').
Proof.
  intros (_ & rows & Hrows & H)%insert_vacancies_Ok. exists rows. split; [done|].
  destruct H as [[-> ->]|[_ H]]; [done|].
  by apply UpsertFacts.execute_values_upsert_rows.
Qed.

Lemma upsert_companies_well_formed (employers : list employer_payload) (s s' : db) :
  well_formed s -> upsert_companies employers s = Ok s' -> well_formed s'.
Proof.
  intros (Hid & Hhh & Hseq & Hvid & Hvhh & Hvseq & Hfk) H.
  pose proof (upsert_companies_seq _ _ _ H) as Eseq.
  pose proof H as [Ev _]%upsert_companies_Ok.
  apply upsert_companies_rows in H.
  destruct (UpsertInvariants.upsert_rows_keys cr_hh_id c_hh_id c_id company_constraints
              company_inserted company_updated ltac:(done) ltac:(done) ltac:(done) ltac:(done)
              _ _ _ H Hhh Hid Hseq) as (Hhh' & Hid' & Hseq').
  simpl in Hhh', Hid', Hseq'. unfold well_formed. rewrite Ev, Eseq.
  repeat split; try done.
  eapply Forall_impl; [exact Hfk|]. intros v (c & E & Hc)%list_elem_of_fmap.
  destruct (UpsertInvariants.upsert_rows_keeps_id cr_hh_id c_hh_id c_id company_constraints
              company_inserted company_updated ltac:(done) ltac:(done) _ _ _ c H Hc)
    as (c' & Hc' & _ & Hi & _).
  apply list_elem_of_fmap. exists c'. split; [congruence|done].
Qed.

Lemma insert_vacancies_well_formed (fromisoformat : string -> result datetime)
    (vacs : list vacancy_payload) (s s' : db) :
  well_formed s -> insert_vacancies fromisoformat vacs s = Ok s' -> well_formed s'.
Proof.
  intros (Hid & Hhh & Hseq & Hvid & Hvhh & Hvseq & Hfk) H.
  pose proof (insert_vacancies_seq _ _ _ _ H) as Eseq.
  pose proof H as [Ec _]%insert_vacancies_Ok.
  apply insert_vacancies_rows in H as (rows & Hrows & H).
  destruct (UpsertInvariants.upsert_rows_keys vr_hh_id v_hh_id v_id vacancy_constraints
              vacancy_inserted vacancy_updated ltac:(done) ltac:(done) ltac:(done) ltac:(done)
              _ _ _ H Hvhh Hvid Hvseq) as (Hvhh' & Hvid' & Hvseq').
  simpl in Hvhh', Hvid', Hvseq'. unfold well_formed. rewrite Ec, Eseq.
  repeat split; try done.
  apply vacancy_rows_company in Hrows. rewrite Forall_forall in Hrows.
  change (vacancies s') with ((vacancies s', vacancies_id_seq s').1).
  eapply (UpsertFacts.upsert_rows_Forall vr_hh_id v_hh_id vacancy_constraints
            vacancy_inserted vacancy_updated); [| |exact H|exact Hfk].
  - intros i r (c & Hc & E)%Hrows. simpl. rewrite <- E. apply list_elem_of_fmap. eauto.
  - intros r v (c & Hc & E)%Hrows. simpl. rewrite <- E. apply list_elem_of_fmap. eauto.
Qed.

(** X14: the two upserts keep the keys of the schema: when [id] and
    [hh_id] are unique in both tables, every [company_id] names a stored
    company and the sequences are above the ids in use, the same holds
    after [upsert_companies] and after [insert_vacancies], whether the
    call returns or raises. *)
Theorem upserts_keep_keys (fromisoformat : string -> result datetime) (s : db)
    (employers : list employer_payload) (vacs : list vacancy_payload) :
  well_formed s ->
  well_formed (after s (upsert_companies employers s))
  /\ well_formed (after s (insert_vacancies fromisoformat vacs s)).
Proof.
  intros Hs. split.
  - destruct (upsert_companies employers s) as [s'|] eqn:H; [|done].
    by eapply upsert_companies_well_formed.
  - destruct (insert_vacancies fromisoformat vacs s) as [s'|] eqn:H; [|done].
    by eapply insert_vacancies_well_formed.
Qed.

Lemma upserts_keep_keys_witness :
  well_formed acme_db /\ well_formed acme_db_companies /\ well_formed acme_db_postings.
Proof.
  assert (H : well_formed acme_db) by (by apply (bool_decide_unpack _)).
  split; [exact H|].
  exact (upserts_keep_keys sample_fromisoformat acme_db [acme_renamed; zeta_employer]
           [acme_posting; orphan_posting] H).
Defined.

(** ** Further properties of [insert_vacancies] *)

Lemma company_mapping_lookup (s : db) (c : company) :
  NoDup (c_hh_id <$> companies s) -> c ∈ companies s ->
  company_mapping s !! c_hh_id c = Some (c_id c).
Proof.
  unfold company_mapping. induction (companies s) as [|x l IH] using rev_ind;
    [by intros _ ?%elem_of_nil|].
  rewrite fmap_app, foldl_app. simpl. intros Hnd Hc.
  apply NoDup_app in Hnd as (Hl & Hx & _).
  apply elem_of_app in Hc as [Hc|Hc];
    [|apply list_elem_of_singleton in Hc as ->; apply lookup_insert_eq].
  rewrite lookup_insert_ne; [by apply IH|].
  intros E. apply (Hx (c_hh_id c)); [apply list_elem_of_fmap; eauto|].
  rewrite <- E. by left.
Qed.

(** The row built for a posting that resolves. *)
Lemma vacancy_rows_elem (fromisoformat : string -> result datetime) (mapping : gmap Z Z)
    (vacs : list vacancy_payload) (rows : list vacancy_row)
    (vac : vacancy_payload) (employer : employer_ref) (emp_hh_id company_id : Z) :
  vacancy_rows fromisoformat mapping vacs = Ok rows ->
  vac ∈ vacs -> vac_employer vac = Some employer -> ref_id employer = Some emp_hh_id ->
  mapping !! emp_hh_id = Some company_id ->
  exists r, r ∈ rows
            /\ vr_hh_id r = vac_id vac /\ vr_company_id r = company_id
            /\ vr_title r = get_default (vac_name vac) EmptyString
            /\ (vr_salary_from r, vr_salary_to r, vr_salary_currency r)
               = _parse_salary (vac_salary vac)
            /\ vr_alternate_url r = vac_alternate_url vac
            /\ _parse_published_at fromisoformat (vac_published_at vac)
               = Ok (vr_published_at r).
Proof.
  intros H Hvac He Hk Hm. revert rows H.
  induction vacs as [|vac0 vacs IH]; intros rows; [by apply elem_of_nil in Hvac|].
  assert (Hskip : forall rows', vacancy_rows fromisoformat mapping vacs = Ok rows' ->
            vac ∈ vacs -> exists r, r ∈ rows' /\ vr_hh_id r = vac_id vac
              /\ vr_company_id r = company_id
              /\ vr_title r = get_default (vac_name vac) EmptyString
              /\ (vr_salary_from r, vr_salary_to r, vr_salary_currency r)
                 = _parse_salary (vac_salary vac)
              /\ vr_alternate_url r = vac_alternate_url vac
              /\ _parse_published_at fromisoformat (vac_published_at vac)
                 = Ok (vr_published_at r)).
  { intros rows' H' Hin. by apply IH. }
  simpl. apply elem_of_cons in Hvac as [<-|Hin].
  - rewrite He. simpl. rewrite Hk, Hm.
    destruct (_parse_salary (vac_salary vac)) as [[sf st] cur] eqn:Es.
    destruct (_parse_published_at fromisoformat (vac_published_at vac)) as [p|]; simpl; [|done].
    destruct (vacancy_rows fromisoformat mapping vacs) as [rows'|]; simpl; [|done].
    intros [= <-]. eexists. split; [by left|]. simpl. by repeat split.
  - destruct (ref_id (default {| ref_id := None |} (vac_employer vac0))) as [k|];
      [|by intros ?%Hskip].
    destruct (mapping !! k) as [cid|]; [|by intros ?%Hskip].
    destruct (_parse_salary (vac_salary vac0)) as [[sf st] cur].
    destruct (_parse_published_at fromisoformat (vac_published_at vac0)) as [p|]; simpl; [|done].
    destruct (vacancy_rows fromisoformat mapping vacs) as [rows'|]; simpl; [|done].
    intros [= <-]. destruct (Hskip rows' eq_refl Hin) as (r & Hr & Hrest).
    exists r. split; [by right|done].
Qed.

Lemma vacancy_rows_ids (fromisoformat : string -> result datetime) (mapping : gmap Z Z)
    (vacs : list vacancy_payload) (rows : list vacancy_row) :
  vacancy_rows fromisoformat mapping vacs = Ok rows ->
  sublist (vr_hh_id <$> rows) (vac_id <$> vacs).
Proof.
  revert rows. induction vacs as [|vac vacs IH]; intros rows; simpl.
  - intros [= <-]. constructor.
  - destruct (ref_id (default {| ref_id := None |} (vac_employer vac))) as [k|];
      [|intros ?%IH; by apply sublist_cons].
    destruct (mapping !! k) as [cid|]; [|intros ?%IH; by apply sublist_cons].
    destruct (_parse_salary (vac_salary vac)) as [[sf st] cur].
    destruct (_parse_published_at fromisoformat (vac_published_at vac)) as [p|]; simpl; [|done].
    destruct (vacancy_rows fromisoformat mapping vacs) as [rows'|]; simpl; [|done].
    intros [= <-]. csimpl. apply sublist_skip. by apply IH.
Qed.

(** X15: after [insert_vacancies] has accepted a batch with distinct
    posting ids, a posting of the batch whose employer is a stored
    company is stored under its id, bound to the [id] of that company,
    with its title (empty when the key [name] is missing), its salary
    fields as [_parse_salary] gives them and its [alternate_url]; its
    [published_at] is [NULL] exactly when [_parse_published_at] gives
    [None] for it. *)
Theorem insert_vacancies_stores (fromisoformat : string -> result datetime)
    (vacs : list vacancy_payload) (s s' : db)
    (vac : vacancy_payload) (employer : employer_ref) (c : company) :
  insert_vacancies fromisoformat vacs s = Ok s' ->
  NoDup (vac_id <$> vacs) -> NoDup (c_hh_id <$> companies s) ->
  vac ∈ vacs -> vac_employer vac = Some employer ->
  c ∈ companies s -> ref_id employer = Some (c_hh_id c) ->
  exists v, v ∈ vacancies s'
            /\ v_hh_id v = vac_id vac /\ v_company_id v = c_id c
            /\ get_default (vac_name vac) EmptyString = Some (v_title v)
            /\ (v_salary_from v, v_salary_to v, v_salary_currency v)
               = _parse_salary (vac_salary vac)
            /\ v_alternate_url v = vac_alternate_url vac
            /\ (v_published_at v = None
                <-> _parse_published_at fromisoformat (vac_published_at vac) = Ok None).
Proof.
  intros H Hnd Hhh Hvac He Hc Hk.
  apply insert_vacancies_rows in H as (rows & Hrows & H).
  destruct (vacancy_rows_elem _ _ _ _ vac employer (c_hh_id c) (c_id c) Hrows Hvac He Hk)
    as (r & Hr & Hid & Hcid & Htitle & Hsal & Hurl & Hpub);
    [by apply company_mapping_lookup|].
  edestruct (UpsertFacts.upsert_rows_stores vr_hh_id v_hh_id vacancy_constraints
               vacancy_inserted vacancy_updated) as (v & Hv & Hkey); [done..|exact H|exact Hr|].
  assert (Hlast : Upsert.last_row vr_hh_id (v_hh_id v) rows = Some r).
  { rewrite Hkey. apply UpsertInvariants.last_row_NoDup; [|done].
    eapply sublist_NoDup; [exact Hnd|]. by eapply vacancy_rows_ids. }
  assert (Hu : vacancy_updated r v = v).
  { eapply (UpsertFacts.upsert_rows_carries vr_hh_id v_hh_id vacancy_constraints
              vacancy_inserted vacancy_updated); [done..|exact H|exact Hv|exact Hlast]. }
  apply UpsertInvariants.upsert_rows_constraints in H.
  rewrite Forall_forall in H. apply H in Hr as Hcons.
  assert (Hnn : exists t, vr_title r = Some t).
  { unfold vacancy_constraints in Hcons.
    destruct (check_text (vr_title r)); simpl in Hcons; [|done].
    destruct (check_text (vr_salary_currency r)); simpl in Hcons; [|done].
    destruct (check_text (vr_alternate_url r)); simpl in Hcons; [|done].
    destruct (check_int4 (vr_hh_id r)); simpl in Hcons; [|done].
    destruct (check_int4 (vr_company_id r)); simpl in Hcons; [|done].
    destruct (check_int4_null (vr_salary_from r)); simpl in Hcons; [|done].
    destruct (check_int4_null (vr_salary_to r)); simpl in Hcons; [|done].
    destruct (vr_title r); [by eexists|done]. }
  destruct Hnn as [t Ht].
  exists v. split; [done|]. rewrite <- Hu. simpl.
  split; [congruence|]. split; [done|]. split; [by rewrite <- Htitle, Ht|].
  split; [done|]. split; [done|]. rewrite Hpub. split; [by intros ->|by intros [= ->]].
Qed.

Lemma insert_vacancies_stores_witness :
  insert_vacancies sample_fromisoformat [acme_posting; orphan_posting] acme_db
  = Ok acme_db_postings
  /\ exists v, v ∈ vacancies acme_db_postings
               /\ v_hh_id v = vac_id acme_posting /\ v_company_id v = c_id acme
               /\ get_default (vac_name acme_posting) EmptyString = Some (v_title v)
               /\ (v_salary_from v, v_salary_to v, v_salary_currency v)
                  = _parse_salary (vac_salary acme_posting)
               /\ v_alternate_url v = vac_alternate_url acme_posting
               /\ (v_published_at v = None
                   <-> _parse_published_at sample_fromisoformat
                         (vac_published_at acme_posting) = Ok None).
Proof.
  assert (H : insert_vacancies sample_fromisoformat [acme_posting; orphan_posting] acme_db
              = Ok acme_db_postings) by reflexivity.
  split; [exact H|].
  apply (insert_vacancies_stores sample_fromisoformat _ _ _ acme_posting
           {| ref_id := Some 42 |} acme H).
  - by apply (bool_decide_unpack _).
  - by apply (bool_decide_unpack _).
  - by left.
  - reflexivity.
  - by left.
  - reflexivity.
Defined.

(** ** Further properties of [_parse_published_at] *)

Lemma split_on_not_nil (c : ascii) (s : string) : split_on c s <> [].
Proof.
  induction s as [|d s IH]; simpl; [done|].
  destruct (Ascii.eqb d c); [done|]. by destruct (split_on c s).
Qed.

Lemma join_split_on (c : ascii) (s : string) :
  join (String c EmptyString) (split_on c s) = s.
Proof.
  induction s as [|d s IH]; simpl; [done|].
  pose proof (split_on_not_nil c s) as Hne.
  destruct (Ascii.eqb d c) eqn:E.
  - apply Ascii.eqb_eq in E as ->.
    destruct (split_on c s) as [|part parts]; [done|].
    change (join (String c EmptyString) (EmptyString :: part :: parts))
      with (String c (join (String c EmptyString) (part :: parts))).
    by rewrite IH.
  - destruct (split_on c s) as [|part parts]; [done|]. rewrite <- IH.
    destruct parts as [|part' parts]; [done|].
    change (join (String c EmptyString) (String d part :: part' :: parts))
      with (String d part ++ String c EmptyString
              ++ join (String c EmptyString) (part' :: parts))%string.
    change (join (String c EmptyString) (part :: part' :: parts))
      with (part ++ String c EmptyString
              ++ join (String c EmptyString) (part' :: parts))%string.
    by rewrite string_app_cons.
Qed.

Lemma split_on_parts (c : ascii) (s : string) :
  Forall (fun part => occurs c part = false) (split_on c s).
Proof.
  induction s as [|d s IH]; simpl; [by constructor|].
  destruct (Ascii.eqb d c) eqn:E; [by constructor|].
  destruct (split_on c s) as [|part parts]; [constructor; [simpl; by rewrite E|done]|].
  inversion IH; subst. constructor; [|done]. simpl. by rewrite E.
Qed.

(** [s.replace(c, new)] is [new.join(s.split(c))] *)
Lemma replace_join (c : ascii) (new s : string) :
  replace c new s = join new (split_on c s).
Proof.
  induction s as [|d s IH]; simpl; [done|].
  pose proof (split_on_not_nil c s) as Hne.
  destruct (Ascii.eqb d c) eqn:E.
  - rewrite IH. by destruct (split_on c s) as [|part parts].
  - rewrite IH. destruct (split_on c s) as [|part parts]; [done|].
    destruct parts as [|part' parts]; [done|].
    change (join new (String d part :: part' :: parts))
      with (String d part ++ new ++ join new (part' :: parts))%string.
    by rewrite string_app_cons.
Qed.

Lemma split_on_app (c : ascii) (part rest : string) :
  occurs c part = false ->
  split_on c (part ++ String c rest) = part :: split_on c rest.
Proof.
  induction part as [|d part IH].
  { intros _. change (EmptyString ++ String c rest)%string with (String c rest).
    cbn [split_on]. by rewrite Ascii.eqb_refl. }
  rewrite string_app_cons. cbn [occurs split_on].
  intros [Hd Hpart]%orb_false_elim. by rewrite Hd, IH.
Qed.

Lemma split_on_part (c : ascii) (part : string) :
  occurs c part = false -> split_on c part = [part].
Proof.
  induction part as [|d part IH]; [done|]. cbn [occurs split_on].
  intros [Hd Hpart]%orb_false_elim. by rewrite Hd, IH.
Qed.

(** The parts of a string are determined by the string. *)
Lemma split_on_join (c : ascii) (parts : list string) :
  parts <> [] -> Forall (fun part => occurs c part = false) parts ->
  split_on c (join (String c EmptyString) parts) = parts.
Proof.
  intros Hne Hall. induction Hall as [|part parts Hpart Hall IH]; [done|].
  destruct parts as [|part' parts]; [by apply split_on_part|].
  change (join (String c EmptyString) (part :: part' :: parts))
    with (part ++ String c EmptyString
            ++ join (String c EmptyString) (part' :: parts))%string.
  change (String c EmptyString ++ join (String c EmptyString) (part' :: parts))%string
    with (String c (join (String c EmptyString) (part' :: parts))).
  rewrite split_on_app by done. by rewrite IH.
Qed.

(** X16: [_parse_published_at] rewrites every [Z] of the value to
    [+00:00], not only a trailing one. A value that is not empty is, in
    one way, a list of parts without [Z] that are joined by [Z];
    [fromisoformat] is handed these parts joined by [+00:00]. A
    [ValueError] of [fromisoformat] becomes [None], its timestamp and any
    other exception are passed on. *)
Theorem parse_published_at_every_Z (value : string) :
  value <> EmptyString ->
  exists parts,
    value = join "Z" parts
    /\ Forall (fun part => occurs "Z" part = false) parts
    /\ forall fromisoformat : string -> result datetime,
         _parse_published_at fromisoformat (Some value)
         = match fromisoformat (join "+00:00" parts) with
           | Ok t => Ok (Some t)
           | Raise ValueError => Ok None
           | Raise e => Raise e
           end.
Proof.
  intros Hne. exists (split_on "Z" value). split; [|split].
  - symmetry. apply join_split_on.
  - apply split_on_parts.
  - intros fromisoformat. simpl. rewrite bool_decide_eq_false_2 by done.
    by rewrite replace_join.
Qed.

Lemma parse_published_at_every_Z_witness :
  "2024-01-15Z10:30:00Z"%string <> EmptyString
  /\ exists parts,
       "2024-01-15Z10:30:00Z"%string = join "Z" parts
       /\ Forall (fun part => occurs "Z" part = false) parts
       /\ forall fromisoformat : string -> result datetime,
            _parse_published_at fromisoformat (Some "2024-01-15Z10:30:00Z"%string)
            = match fromisoformat (join "+00:00" parts) with
              | Ok t => Ok (Some t)
              | Raise ValueError => Ok None
              | Raise e => Raise e
              end.
Proof.
  assert (H : "2024-01-15Z10:30:00Z"%string <> EmptyString) by discriminate.
  split; [exact H|].
  exact (parse_published_at_every_Z "2024-01-15Z10:30:00Z" H).
Defined.

(** ** Further properties of [HeadHunterAPI] *)

Lemma pages_loop_sent (vacancies_endpoint : vacancies_params -> result vacancies_body)
    (employer_id per_page : Z) (area : option Z) (only_with_salary : bool)
    (pages_left : list Z) :
  forall (all_items : list vacancy_payload) (w : world),
  exists rqs,
    (pages_loop vacancies_endpoint employer_id per_page area only_with_salary
       pages_left all_items w).1 = sent w rqs
    /\ (length rqs <= length pages_left)%nat
    /\ Forall (fun rq => exists page,
                 page ∈ pages_left
                 /\ rq = GetVacancies
                           (page_params employer_id per_page area only_with_salary page)) rqs.
Proof.
  induction pages_left as [|page pages_left IH]; intros all_items w.
  - exists []. simpl. rewrite sent_nil. split; [done|]. split; [done|constructor].
  - rewrite pages_loop_cons. cbv zeta.
    set (rq := GetVacancies (page_params employer_id per_page area only_with_salary page)).
    assert (Hone : exists rqs, sent w [rq] = sent w rqs
               /\ (length rqs <= length (page :: pages_left))%nat
               /\ Forall (fun rq => exists page0,
                            page0 ∈ page :: pages_left
                            /\ rq = GetVacancies
                                 (page_params employer_id per_page area only_with_salary page0))
                    rqs).
    { exists [rq]. split; [done|]. split; [simpl; lia|].
      constructor; [|done]. exists page. split; [by left|done]. }
    destruct (vacancies_endpoint _) as [data|e]; [|exact Hone].
    case_bool_decide; [exact Hone|].
    destruct (IH (all_items ++ items_of data) (sent w [rq])) as (rqs & -> & Hlen & Hall).
    exists (rq :: rqs). rewrite sent_sent. split; [done|]. split; [simpl; lia|].
    constructor.
    + exists page. split; [by left|done].
    + eapply Forall_impl; [done|]. intros rq' (page' & Hin & ->).
      exists page'. split; [by right|done].
Qed.


(** With [max_pages <= 0] no page is requested and the result is empty,
    whatever the employer has. *)
Theorem get_vacancies_by_employer_no_pages
    (vacancies_endpoint : vacancies_params -> result vacancies_body)
    (employer_id per_page max_pages : Z) (area : option Z) (only_with_salary : bool)
    (w : world) :
  max_pages <= 0 ->
  get_vacancies_by_employer vacancies_endpoint employer_id per_page max_pages
    area only_with_salary w = (w, Ok []).
Proof.
  intros H. unfold get_vacancies_by_employer, range.
  by replace (Z.to_nat max_pages) with 0%nat by lia.
Qed.

Lemma get_vacancies_by_employer_no_pages_witness :
  0 <= 0
  /\ get_vacancies_by_employer sample_vacancies_endpoint 42 100 0 None false acme_world
     = (acme_world, Ok []).
Proof.
  assert (H : 0 <= 0) by lia.
  split; [exact H|].
  exact (get_vacancies_by_employer_no_pages sample_vacancies_endpoint 42 100 0 None false
           acme_world H).
Defined.

Lemma pages_loop_fail (vacancies_endpoint : vacancies_params -> result vacancies_body)
    (employer_id per_page : Z) (area : option Z) (only_with_salary : bool)
    (bodies : Z -> vacancies_body) (e : exn) (m : nat) :
  forall (n k : nat) (all_items : list vacancy_payload) (w : world),
  (m < n)%nat ->
  (forall i, (k <= i < k + m)%nat ->
     vacancies_endpoint (page_params employer_id per_page area only_with_salary (Z.of_nat i))
     = Ok (bodies (Z.of_nat i))
     /\ ~ Z.of_nat i + 1 >= pages_of (bodies (Z.of_nat i))) ->
  vacancies_endpoint
    (page_params employer_id per_page area only_with_salary (Z.of_nat (k + m))) = Raise e ->
  pages_loop vacancies_endpoint employer_id per_page area only_with_salary
    (Z.of_nat <$> seq k n) all_items w
  = (sent w ((fun page => GetVacancies
                (page_params employer_id per_page area only_with_salary page))
             <$> (Z.of_nat <$> seq k (S m))),
     Raise e).
Proof.
  induction m as [|m IH]; intros n k all_items w Hn Hok Hbad;
    (destruct n as [|n]; [lia|]);
    change (Z.of_nat <$> seq k (S n)) with (Z.of_nat k :: (Z.of_nat <$> seq (S k) n));
    rewrite pages_loop_cons; cbv zeta.
  - rewrite Nat.add_0_r in Hbad. by rewrite Hbad.
  - destruct (Hok k) as [Hk Hgo]; [lia|]. rewrite Hk.
    rewrite bool_decide_eq_false_2 by done.
    rewrite (IH n (S k)); [by rewrite sent_sent|lia| |].
    + intros i Hi. apply Hok. lia.
    + by replace (S k + m)%nat with (k + S m)%nat by lia.
Qed.

(** X18: when a page request fails after the pages before it were
    answered and did not end the loop, [get_vacancies_by_employer] raises
    the error of that request: it has sent the requests for the pages up
    to the failing one, and the items of the earlier pages are not
    returned. *)
Theorem get_vacancies_by_employer_fails
    (vacancies_endpoint : vacancies_params -> result vacancies_body)
    (employer_id per_page max_pages : Z) (area : option Z) (only_with_salary : bool)
    (bodies : Z -> vacancies_body) (bad : Z) (e : exn) (w : world) :
  0 <= bad < max_pages ->
  (forall page, 0 <= page < bad ->
     vacancies_endpoint (page_params employer_id per_page area only_with_salary page)
     = Ok (bodies page)
     /\ ~ page + 1 >= pages_of (bodies page)) ->
  vacancies_endpoint (page_params employer_id per_page area only_with_salary bad) = Raise e ->
  get_vacancies_by_employer vacancies_endpoint employer_id per_page max_pages
    area only_with_salary w
  = (sent w ((fun page => GetVacancies
                (page_params employer_id per_page area only_with_salary page))
             <$> range (bad + 1)),
     Raise e).
Proof.
  intros Hbad Hok He. unfold get_vacancies_by_employer, range at 1.
  rewrite (pages_loop_fail vacancies_endpoint employer_id per_page area only_with_salary
             bodies e (Z.to_nat bad)).
  - replace bad with (Z.of_nat (Z.to_nat bad)) at 2 by lia. by rewrite range_succ.
  - lia.
  - intros i Hi. apply Hok. lia.
  - simpl. by replace (Z.of_nat (Z.to_nat bad)) with bad by lia.
Qed.

Lemma get_vacancies_by_employer_fails_witness :
  0 <= 1 < 20
  /\ get_vacancies_by_employer failing_vacancies_endpoint 42 100 20 None false acme_world
     = (sent acme_world ((fun page => GetVacancies (page_params 42 100 None false page))
                         <$> range (1 + 1)),
        Raise HTTPError).
Proof.
  assert (H : 0 <= 1 < 20) by lia.
  split; [exact H|].
  apply (get_vacancies_by_employer_fails failing_vacancies_endpoint 42 100 20 None false
           sample_bodies 1 HTTPError acme_world H).
  - intros page Hpage. assert (page = 0) as -> by lia. split; [reflexivity|].
    unfold pages_of. simpl. lia.
  - reflexivity.
Defined.

(** ** Further properties of [load_hh_data_to_db] *)

Lemma transaction_run (f : db -> result db) (w : world) :
  transaction f w
  = match f (w_db w) with
    | Ok s' => ({| w_db := s'; w_requests := w_requests w |}, Ok ())
    | Raise e => (w, Raise e)
    end.
Proof. reflexivity. Qed.

Lemma get_vacancies_by_employer_sent
    (vacancies_endpoint : vacancies_params -> result vacancies_body)
    (employer_id per_page max_pages : Z) (area : option Z) (only_with_salary : bool)
    (w : world) :
  exists rqs,
    (get_vacancies_by_employer vacancies_endpoint employer_id per_page max_pages
       area only_with_salary w).1 = sent w rqs
    /\ Forall is_vacancies_request rqs.
Proof.
  unfold get_vacancies_by_employer.
  destruct (pages_loop_sent vacancies_endpoint employer_id per_page area only_with_salary
              (range max_pages) [] w) as (rqs & E & _ & Hall).
  exists rqs. split; [done|]. eapply Forall_impl; [done|]. by intros rq (page & _ & ->).
Qed.

Lemma extend_all_sent (vacancies_endpoint : vacancies_params -> result vacancies_body)
    (only_with_salary : bool) (max_pages : Z) (seeds : list EmployerSeed) :
  forall (all_vacancies : list vacancy_payload) (w : world),
  exists rqs,
    (extend_all vacancies_endpoint only_with_salary max_pages seeds all_vacancies w).1
    = sent w rqs
    /\ Forall is_vacancies_request rqs.
Proof.
  induction seeds as [|seed seeds IH]; intros all_vacancies w.
  - exists []. simpl. by rewrite sent_nil.
  - simpl. rewrite io_bind_run.
    destruct (get_vacancies_by_employer_sent vacancies_endpoint (hh_id seed) 100 max_pages
                None only_with_salary w) as (rqs & E & Hall).
    destruct (get_vacancies_by_employer _ _ _ _ _ _ w) as [w1 [items|e]]; simpl in E; subst w1.
    + destruct (IH (all_vacancies ++ items) (sent w rqs)) as (rqs' & -> & Hall').
      exists (rqs ++ rqs'). rewrite sent_sent. split; [done|]. by apply Forall_app.
    + by exists rqs.
Qed.

(** The four steps of a run. *)
Lemma load_hh_data_to_db_run
    (employers_endpoint : Z -> result employer_payload)
    (vacancies_endpoint : vacancies_params -> result vacancies_body)
    (fromisoformat : string -> result datetime)
    (seeds : list EmployerSeed) (only_with_salary : bool) (max_pages : Z) (w : world) :
  load_hh_data_to_db employers_endpoint vacancies_endpoint fromisoformat
    seeds only_with_salary max_pages w
  = match mapM (fun seed => get_employer employers_endpoint (hh_id seed)) seeds w with
    | (w1, Raise e) => (w1, Raise e)
    | (w1, Ok employers_payload) =>
        match upsert_companies employers_payload (w_db w1) with
        | Raise e => (w1, Raise e)
        | Ok s1 =>
            match extend_all vacancies_endpoint only_with_salary max_pages seeds []
                    {| w_db := s1; w_requests := w_requests w1 |} with
            | (w2, Raise e) => (w2, Raise e)
            | (w2, Ok all_vacancies) =>
                transaction (insert_vacancies fromisoformat all_vacancies) w2
            end
        end
    end.
Proof.
  unfold load_hh_data_to_db. rewrite io_bind_run.
  destruct (mapM (fun seed => get_employer employers_endpoint (hh_id seed)) seeds w)
    as [w1 [ps|e]]; [|done].
  rewrite io_bind_run, transaction_run.
  destruct (upsert_companies ps (w_db w1)) as [s1|e]; [|done].
  rewrite io_bind_run. by destruct (extend_all _ _ _ _ _ _) as [w2 [items|e]].
Qed.

(** X19: a run keeps the keys of the schema, however it ends: when they
    hold in the database before [load_hh_data_to_db], they hold in the
    database after it, also when a request or a write has raised. *)
Theorem load_hh_data_to_db_keeps_keys
    (employers_endpoint : Z -> result employer_payload)
    (vacancies_endpoint : vacancies_params -> result vacancies_body)
    (fromisoformat : string -> result datetime)
    (seeds : list EmployerSeed) (only_with_salary : bool) (max_pages : Z) (w : world) :
  well_formed (w_db w) ->
  well_formed (w_db (load_hh_data_to_db employers_endpoint vacancies_endpoint fromisoformat
                       seeds only_with_salary max_pages w).1).
Proof.
  intros Hw. rewrite load_hh_data_to_db_run.
  destruct (get_employers_outcome employers_endpoint seeds w)
    as [(ps & _ & ->)|(pre & bad & post & e & _ & _ & _ & ->)]; [|done].
  simpl w_db.
  destruct (upsert_companies ps (w_db w)) as [s1|e] eqn:H1; [|done].
  apply (upsert_companies_well_formed _ _ _ Hw) in H1.
  destruct (extend_all_sent vacancies_endpoint only_with_salary max_pages seeds []
              {| w_db := s1;
                 w_requests := w_requests
                                 (sent w ((fun seed => GetEmployer (hh_id seed)) <$> seeds)) |})
    as (rqs & E & _).
  destruct (extend_all _ _ _ _ _ _) as [w2 [items|e]]; simpl in E; subst w2; [|done].
  rewrite transaction_run. simpl w_db.
  destruct (insert_vacancies fromisoformat items s1) as [s2|e] eqn:H2; [|done].
  by apply (insert_vacancies_well_formed _ _ _ _ H1) in H2.
Qed.

Lemma load_hh_data_to_db_keeps_keys_witness :
  well_formed (w_db acme_world)
  /\ well_formed (w_db (load_hh_data_to_db steady_employers_endpoint sample_vacancies_endpoint
                          sample_fromisoformat acme_seeds false 20 acme_world).1).
Proof.
  assert (H : well_formed (w_db acme_world)) by (by apply (bool_decide_unpack _)).
  split; [exact H|].
  exact (load_hh_data_to_db_keeps_keys steady_employers_endpoint sample_vacancies_endpoint
           sample_fromisoformat acme_seeds false 20 acme_world H).
Defined.

(** A page loop that returns has been answered at every page that it
    requested. *)
Lemma pages_loop_Ok (vacancies_endpoint : vacancies_params -> result vacancies_body)
    (employer_id per_page : Z) (area : option Z) (only_with_salary : bool) (n : nat) :
  forall (k : nat) (all_items : list vacancy_payload) (w w' : world)
         (res : list vacancy_payload),
  pages_loop vacancies_endpoint employer_id per_page area only_with_salary
    (Z.of_nat <$> seq k n) all_items w = (w', Ok res) ->
  exists bodies,
    (length bodies <= n)%nat
    /\ ((0 < n)%nat -> bodies <> [])
    /\ (forall (i : nat) (body : vacancies_body),
          bodies !! i = Some body ->
          vacancies_endpoint
            (page_params employer_id per_page area only_with_salary (Z.of_nat (k + i)))
          = Ok body
          /\ ((S i < length bodies)%nat ->
              Z.of_nat (k + i) + 1 < default 0 (body_pages body))
          /\ (S i = length bodies ->
              Z.of_nat (k + i) + 1 >= default 0 (body_pages body) \/ S i = n))
    /\ res = all_items ++ postings_of bodies
    /\ w' = sent w ((fun page => GetVacancies
                       (page_params employer_id per_page area only_with_salary page))
                    <$> (Z.of_nat <$> seq k (length bodies))).
Proof.
  induction n as [|n IH]; intros k all_items w w' res.
  - simpl. intros [= <- <-]. exists []. split; [done|]. split; [lia|].
    split; [by intros i body Hi|]. split; [by rewrite app_nil_r|by rewrite sent_nil].
  - change (Z.of_nat <$> seq k (S n)) with (Z.of_nat k :: (Z.of_nat <$> seq (S k) n)).
    rewrite pages_loop_cons. cbv zeta.
    destruct (vacancies_endpoint _) as [data|e] eqn:Hdata; [|done].
    unfold pages_of, items_of. case_bool_decide as Hstop.
    + intros [= <- <-]. exists [data]. split; [simpl; lia|]. split; [done|].
      split; [|split; [unfold postings_of; simpl; by rewrite app_nil_r|done]].
      intros [|i] body Hi; [|done]. injection Hi as <-. rewrite Nat.add_0_r.
      split; [done|]. split; [simpl; lia|]. intros _. by left.
    + intros (bodies & Hlen & Hne & Hall & -> & ->)%IH.
      exists (data :: bodies). split; [simpl; lia|]. split; [done|].
      split; [|split].
      * intros [|i] body Hi.
        -- injection Hi as <-. rewrite Nat.add_0_r. split; [done|]. split; [lia|].
           simpl. intros Hone. right. destruct bodies; [|done].
           destruct n; [done|]. exfalso. apply Hne; [lia|done].
        -- simpl in Hi. destruct (Hall i body Hi) as (Hok & Hgo & Hend).
           replace (k + S i)%nat with (S k + i)%nat by lia.
           split; [done|]. split; [simpl; intros ?; apply Hgo; lia|].
           simpl. intros Hlast. destruct Hend as [?|?]; [lia|by left|right; lia].
      * unfold postings_of. simpl. by rewrite <- app_assoc.
      * by rewrite sent_sent.
Qed.

Lemma get_vacancies_by_employer_Ok
    (vacancies_endpoint : vacancies_params -> result vacancies_body)
    (employer_id per_page max_pages : Z) (area : option Z) (only_with_salary : bool)
    (w w' : world) (res : list vacancy_payload) :
  get_vacancies_by_employer vacancies_endpoint employer_id per_page max_pages
    area only_with_salary w = (w', Ok res) ->
  exists bodies,
    fetched_pages vacancies_endpoint employer_id per_page max_pages area only_with_salary
      bodies
    /\ res = postings_of bodies
    /\ w' = sent w (page_requests employer_id per_page area only_with_salary (length bodies)).
Proof.
  unfold get_vacancies_by_employer, range.
  intros (bodies & Hlen & Hne & Hall & -> & ->)%pages_loop_Ok.
  exists bodies. split; [|split; [done|]].
  - split; [done|]. split; [intros ?; apply Hne; lia|].
    intros i body Hi. destruct (Hall i body Hi) as (Hok & Hgo & Hend).
    simpl in Hok, Hgo, Hend. split; [done|]. split; [done|].
    intros Hlast. destruct (Hend Hlast) as [?|?]; [by left|right; lia].
  - unfold page_requests, range. by rewrite Nat2Z.id.
Qed.

Lemma extend_all_Ok (vacancies_endpoint : vacancies_params -> result vacancies_body)
    (only_with_salary : bool) (max_pages : Z) (seeds : list EmployerSeed) :
  forall (all_vacancies : list vacancy_payload) (w w' : world) (res : list vacancy_payload),
  extend_all vacancies_endpoint only_with_salary max_pages seeds all_vacancies w
  = (w', Ok res) ->
  exists fetched,
    Forall2 (fun seed bodies =>
               fetched_pages vacancies_endpoint (hh_id seed) 100 max_pages None
                 only_with_salary bodies) seeds fetched
    /\ res = all_vacancies ++ concat (postings_of <$> fetched)
    /\ w' = sent w (concat (zip_with
                              (fun seed bodies =>
                                 page_requests (hh_id seed) 100 None only_with_salary
                                   (length bodies)) seeds fetched)).
Proof.
  induction seeds as [|seed seeds IH]; intros all_vacancies w w' res.
  - simpl. intros [= <- <-]. exists []. split; [constructor|].
    split; [by rewrite app_nil_r|by rewrite sent_nil].
  - simpl. rewrite io_bind_run.
    destruct (get_vacancies_by_employer _ _ _ _ _ _ w) as [w1 [items|e]] eqn:Hget; [|done].
    apply get_vacancies_by_employer_Ok in Hget as (bodies & Hbodies & -> & ->).
    intros (fetched & Hfetched & -> & ->)%IH.
    exists (bodies :: fetched). split; [by constructor|].
    split; [simpl; by rewrite <- app_assoc|]. simpl. by rewrite sent_sent.
Qed.

(** X20: a run that returns has been answered at every request. It has
    sent one employer request for each seed, in the order of the seeds,
    and then, seed by seed, the requests for the pages 0, 1, ... up to the
    first page that ends the loop of [get_vacancies_by_employer]. The
    companies written are the fetched employers, through one
    [upsert_companies]; the postings written are the ["items"] of all the
    answered pages, in the order of the requests, through one
    [insert_vacancies] on the database that [upsert_companies] left. *)
Theorem load_hh_data_to_db_returns
    (employers_endpoint : Z -> result employer_payload)
    (vacancies_endpoint : vacancies_params -> result vacancies_body)
    (fromisoformat : string -> result datetime)
    (seeds : list EmployerSeed) (only_with_salary : bool) (max_pages : Z) (w w' : world) :
  load_hh_data_to_db employers_endpoint vacancies_endpoint fromisoformat
    seeds only_with_salary max_pages w = (w', Ok ()) ->
  exists (employers_payload : list employer_payload)
         (fetched : list (list vacancies_body)) (s1 : db),
    Forall2 (fun seed p => employers_endpoint (hh_id seed) = Ok p) seeds employers_payload
    /\ Forall2 (fun seed bodies =>
                  fetched_pages vacancies_endpoint (hh_id seed) 100 max_pages None
                    only_with_salary bodies) seeds fetched
    /\ upsert_companies employers_payload (w_db w) = Ok s1
    /\ insert_vacancies fromisoformat (concat (postings_of <$> fetched)) s1 = Ok (w_db w')
    /\ w_requests w'
       = w_requests w ++ ((fun seed => GetEmployer (hh_id seed)) <$> seeds)
         ++ concat (zip_with
                      (fun seed bodies =>
                         page_requests (hh_id seed) 100 None only_with_salary (length bodies))
                      seeds fetched).
Proof.
  rewrite load_hh_data_to_db_run.
  destruct (get_employers_outcome employers_endpoint seeds w)
    as [(ps & Hps & ->)|(pre & bad & post & e & _ & _ & _ & ->)]; [|done].
  simpl w_db.
  destruct (upsert_companies ps (w_db w)) as [s1|e] eqn:H1; [|done].
  destruct (extend_all _ _ _ _ _ _) as [w2 [items|e]] eqn:Hext; [|done].
  apply extend_all_Ok in Hext as (fetched & Hfetched & -> & ->).
  rewrite transaction_run. simpl w_db.
  destruct (insert_vacancies fromisoformat _ s1) as [s2|e] eqn:H2; [|done].
  intros [= <-]. exists ps, fetched, s1. simpl in *. by rewrite <- app_assoc.
Qed.

Lemma load_hh_data_to_db_returns_witness :
  let run := load_hh_data_to_db steady_employers_endpoint sample_vacancies_endpoint
               sample_fromisoformat acme_seeds false 20 acme_world in
  run = (run.1, Ok ())
  /\ exists (employers_payload : list employer_payload)
            (fetched : list (list vacancies_body)) (s1 : db),
       Forall2 (fun seed p => steady_employers_endpoint (hh_id seed) = Ok p)
         acme_seeds employers_payload
       /\ Forall2 (fun seed bodies =>
                     fetched_pages sample_vacancies_endpoint (hh_id seed) 100 20 None
                       false bodies) acme_seeds fetched
       /\ upsert_companies employers_payload (w_db acme_world) = Ok s1
       /\ insert_vacancies sample_fromisoformat (concat (postings_of <$> fetched)) s1
          = Ok (w_db run.1)
       /\ w_requests run.1
          = w_requests acme_world ++ ((fun seed => GetEmployer (hh_id seed)) <$> acme_seeds)
            ++ concat (zip_with
                         (fun seed bodies =>
                            page_requests (hh_id seed) 100 None false (length bodies))
                         acme_seeds fetched).
Proof.
  intros run.
  assert (H : run = (run.1, Ok ())) by reflexivity.
  split; [exact H|].
  exact (load_hh_data_to_db_returns steady_employers_endpoint sample_vacancies_endpoint
           sample_fromisoformat acme_seeds false 20 acme_world run.1 H).
Defined.

Lemma extend_all_first_page_fails
    (vacancies_endpoint : vacancies_params -> result vacancies_body)
    (only_with_salary : bool) (max_pages : Z) (seeds : list EmployerSeed) :
  1 <= max_pages ->
  Exists (fun seed => exists e, vacancies_endpoint
                        (page_params (hh_id seed) 100 None only_with_salary 0) = Raise e)
    seeds ->
  forall (all_vacancies : list vacancy_payload) (w : world),
  exists e, (extend_all vacancies_endpoint only_with_salary max_pages seeds all_vacancies w).2
            = Raise e.
Proof.
  intros Hmax Hbad. induction Hbad as [seed seeds [e He]|seed seeds _ IH];
    intros all_vacancies w; simpl; rewrite io_bind_run.
  - unfold get_vacancies_by_employer, range.
    destruct (Z.to_nat max_pages) as [|n] eqn:En; [lia|].
    change (Z.of_nat <$> seq 0 (S n)) with (0 :: (Z.of_nat <$> seq 1 n)).
    rewrite pages_loop_cons. cbv zeta. rewrite He. by exists e.
  - destruct (get_vacancies_by_employer _ _ _ _ _ _ w) as [w1 [items|e]]; [apply IH|].
    by exists e.
Qed.

(** X21: there is no rollback across the two writes of a run: when every
    seed employer is fetched and [upsert_companies] accepts the batch, but
    the first page request of some seed fails, the run raises and the
    database is the one that [upsert_companies] left, with the companies
    written and no posting written. *)
Theorem load_hh_data_to_db_partial
    (employers_endpoint : Z -> result employer_payload)
    (vacancies_endpoint : vacancies_params -> result vacancies_body)
    (fromisoformat : string -> result datetime)
    (seeds : list EmployerSeed) (only_with_salary : bool) (max_pages : Z) (w : world)
    (employers_payload : list employer_payload) (s1 : db) :
  1 <= max_pages ->
  Forall2 (fun seed p => employers_endpoint (hh_id seed) = Ok p) seeds employers_payload ->
  upsert_companies employers_payload (w_db w) = Ok s1 ->
  Exists (fun seed => exists e, vacancies_endpoint
                        (page_params (hh_id seed) 100 None only_with_salary 0) = Raise e)
    seeds ->
  exists w' e,
    load_hh_data_to_db employers_endpoint vacancies_endpoint fromisoformat
      seeds only_with_salary max_pages w = (w', Raise e)
    /\ w_db w' = s1.
Proof.
  intros Hmax Hps H1 Hbad. rewrite load_hh_data_to_db_run.
  destruct (get_employers_outcome employers_endpoint seeds w)
    as [(ps & Hps' & ->)|(pre & bad & post & e & -> & _ & He & _)].
  - assert (ps = employers_payload) as ->.
    { clear -Hps Hps'. revert ps Hps'.
      induction Hps as [|seed p seeds l Hp _ IH]; intros ps; inversion 1; subst; [done|].
      f_equal; [congruence|by apply IH]. }
    simpl w_db. rewrite H1.
    set (w1 := {| w_db := s1;
                  w_requests := w_requests
                    (sent w ((fun seed => GetEmployer (hh_id seed)) <$> seeds)) |}).
    destruct (extend_all_sent vacancies_endpoint only_with_salary max_pages seeds [] w1)
      as (rqs & E & _).
    destruct (extend_all_first_page_fails vacancies_endpoint only_with_salary max_pages
                seeds Hmax Hbad [] w1) as [e He].
    destruct (extend_all _ _ _ _ _ _) as [w2 r]. simpl in E, He. subst w2 r.
    by exists (sent w1 rqs), e.
  - exfalso. apply Forall2_app_inv_l in Hps as (l1 & l2 & _ & Hbadp & _).
    inversion Hbadp; subst. congruence.
Qed.

Lemma load_hh_data_to_db_partial_witness :
  exists w' e,
    load_hh_data_to_db steady_employers_endpoint (fun _ => Raise HTTPError)
      sample_fromisoformat acme_seeds false 20 acme_world = (w', Raise e)
    /\ w_db w' = after acme_db (upsert_companies
                   [{| emp_id := 42; emp_name := Value "Acme Corp"%string;
                       emp_alternate_url := None; emp_url := None |}] acme_db).
Proof.
  apply (load_hh_data_to_db_partial steady_employers_endpoint (fun _ => Raise HTTPError)
           sample_fromisoformat acme_seeds false 20 acme_world
           [{| emp_id := 42; emp_name := Value "Acme Corp"%string;
               emp_alternate_url := None; emp_url := None |}]).
  - lia.
  - repeat constructor.
  - reflexivity.
  - apply Exists_cons_hd. by exists HTTPError.
Defined.
